(** * CrashLogTools: the crash-log model and the address resolver

    A shallow embedding of [crashlogtools/crashlogutil.py]: the
    [STACK_PATTERN] regular expression, [CrashLogProcessor.add_name],
    [CrashLogProcessor.lookup_ids], [CrashLogProcessor.process_log],
    the [CrashLog] document (read_file, rewrite_call_stack, write_file)
    and the [IdScanner] cursor over the address database.

    Python [bytes] are [list byte]; Python [int] is [Z]; a [dict] is a
    [gmap]; a [set] is a [gset]; exceptions are carried by [result]. *)

From Stdlib Require Import ZArith List Lia.
From Stdlib Require Import Strings.Byte.
From stdpp Require Import gmap strings list fin_maps sorting.

Local Open Scope Z_scope.

(** ** Bytes *)

Abbreviation bytes := (list byte).

#[global] Instance byte_eq_decision : EqDecision byte := Byte.byte_eq_dec.

(** A [bytes] literal without escapes. *)
Definition bs (s : string) : bytes := String.list_byte_of_string s.

Definition TAB : byte := x09.
Definition NL : byte := x0a.
Definition SPACE : byte := x20.

Definition byte_code (b : byte) : Z := Z.of_N (Byte.to_N b).

(** [Py_ISSPACE]: the whitespace of [bytes.split()]. *)
Definition is_space (b : byte) : bool :=
  ((9 <=? byte_code b) && (byte_code b <=? 13)) || (byte_code b =? 32).

Definition is_digit (b : byte) : bool :=
  (48 <=? byte_code b) && (byte_code b <=? 57).

Definition is_upper_hex (b : byte) : bool :=
  is_digit b || ((65 <=? byte_code b) && (byte_code b <=? 70)).

(** ** Exceptions *)

Inductive exn := ValueError | TypeError | FileNotFoundError.

Inductive result (A : Type) :=
| Ok (a : A)
| Raise (e : exn).
Arguments Ok {A} a.
Arguments Raise {A} e.

#[global] Instance result_ret : MRet result := fun _ a => Ok a.

#[global] Instance result_bind : MBind result := fun _ _ k r =>
  match r with
  | Ok a => k a
  | Raise e => Raise e
  end.

(** ** The regular-expression engine

    [re] compiles a pattern to a backtracking matcher: alternatives are
    tried in priority order, a greedy repeat takes as many bytes as it
    can and gives them back one at a time.  The patterns of this program
    repeat single-byte items only, so the repeat is over a byte set. *)

Module Re.

Inductive cset :=
| CByte (b : byte)      (* a literal byte *)
| CNot (b : byte)       (* any byte but this one *)
| CDigit                (* \d in a bytes pattern: [0-9] *)
| CUpperHex.            (* [0-9A-F] *)

(** [.] without DOTALL: anything but a newline. *)
Definition CAny : cset := CNot NL.

Definition cset_mem (c : cset) (b : byte) : bool :=
  match c with
  | CByte b' => bool_decide (b = b')
  | CNot b' => negb (bool_decide (b = b'))
  | CDigit => is_digit b
  | CUpperHex => is_upper_hex b
  end.

Inductive group := G1 | Gid.

#[global] Instance group_eq_decision : EqDecision group.
Proof. solve_decision. Defined.

Inductive regex :=
| RSet (c : cset)                  (* one byte of the set *)
| RLit (l : bytes)                 (* a literal string *)
| RStar (c : cset)                 (* c*, greedy *)
| RPlus (c : cset)                 (* c+, greedy *)
| RSeq (r1 r2 : regex)
| RGroup (g : group) (r : regex).  (* capturing group *)

Definition caps := list (group * (nat * nat)).

Section Matcher.
Context {R : Type}.

(** The continuation receives the position reached, the rest of the
    input and the groups captured so far. *)
Definition cont := nat -> bytes -> caps -> option R.

Fixpoint lit (l : bytes) (pos : nat) (s : bytes) (cs : caps) (k : cont) : option R :=
  match l with
  | [] => k pos s cs
  | c :: l' =>
      match s with
      | b :: s' => if bool_decide (b = c) then lit l' (S pos) s' cs k else None
      | [] => None
      end
  end.

Fixpoint star (c : cset) (pos : nat) (s : bytes) (cs : caps) (k : cont) : option R :=
  match s with
  | b :: s' =>
      if cset_mem c b then
        match star c (S pos) s' cs k with
        | Some r => Some r
        | None => k pos s cs
        end
      else k pos s cs
  | [] => k pos s cs
  end.

Definition one (c : cset) (pos : nat) (s : bytes) (cs : caps) (k : cont) : option R :=
  match s with
  | b :: s' => if cset_mem c b then k (S pos) s' cs else None
  | [] => None
  end.

Fixpoint run (r : regex) (pos : nat) (s : bytes) (cs : caps) (k : cont) : option R :=
  match r with
  | RSet c => one c pos s cs k
  | RLit l => lit l pos s cs k
  | RStar c => star c pos s cs k
  | RPlus c => one c pos s cs (fun pos' s' cs' => star c pos' s' cs' k)
  | RSeq r1 r2 => run r1 pos s cs (fun pos' s' cs' => run r2 pos' s' cs' k)
  | RGroup g r' => run r' pos s cs (fun pos' s' cs' => k pos' s' ((g, (pos, pos')) :: cs'))
  end.
End Matcher.

(** A match object: the subject, where the match ends, the groups. *)
Record Match := {
  m_string : bytes;
  m_end : nat;
  m_groups : caps;
}.

(** [pattern.match(line)]: anchored at the start of [line]. *)
Definition re_match (r : regex) (line : bytes) : option Match :=
  run r 0%nat line [] (fun pos _ cs =>
    Some {| m_string := line; m_end := pos; m_groups := cs |}).

Definition span (s : bytes) (a b : nat) : bytes := take (b - a) (drop a s).

(** [match.group(0)] *)
Definition group0 (m : Match) : bytes := take (m_end m) (m_string m).

Fixpoint find_group (g : group) (cs : caps) : option (nat * nat) :=
  match cs with
  | [] => None
  | (g', sp) :: cs' => if bool_decide (g' = g) then Some sp else find_group g cs'
  end.

(** [match.group(name)]: [None] when the group took no part. *)
Definition group_of (m : Match) (g : group) : option bytes :=
  match find_group g (m_groups m) with
  | Some (a, b) => Some (span (m_string m) a b)
  | None => None
  end.

End Re.

Import Re.

(** [STACK_PATTERN]:
    (\t\[ *\d+] 0x[0-9A-F]+ .*\+[0-9A-F]+) -> (?P<id>\d+)\+0x[0-9A-F]+ *)
Definition STACK_PATTERN : regex :=
  RSeq (RGroup G1
          (RSeq (RSet (CByte TAB))
          (RSeq (RSet (CByte "["%byte))
          (RSeq (RStar (CByte SPACE))
          (RSeq (RPlus CDigit)
          (RSeq (RLit (bs "] 0x"))
          (RSeq (RPlus CUpperHex)
          (RSeq (RSet (CByte SPACE))
          (RSeq (RStar CAny)
          (RSeq (RSet (CByte "+"%byte))
                (RPlus CUpperHex)))))))))))
  (RSeq (RLit (bs " -> "))
  (RSeq (RGroup Gid (RPlus CDigit))
  (RSeq (RLit (bs "+0x"))
        (RPlus CUpperHex)))).

(** ** Builtins: [int], [bytes.split], [bytes.rstrip], [bytes.ljust] *)

Definition digit_val (b : byte) : Z := byte_code b - 48.

(** Digits with single underscores between them, as [int] accepts. *)
Fixpoint int_digits (acc : Z) (s : bytes) : option Z :=
  match s with
  | [] => Some acc
  | c :: s' =>
      if is_digit c then int_digits (10 * acc + digit_val c) s'
      else if bool_decide (c = "_"%byte) then
        match s' with
        | d :: _ => if is_digit d then int_digits acc s' else None
        | [] => None
        end
      else None
  end.

Definition int_unsigned (s : bytes) : option Z :=
  match s with
  | c :: _ => if is_digit c then int_digits 0 s else None
  | [] => None
  end.

(** [sys.get_int_max_str_digits()], at its default. *)
Definition int_max_str_digits : nat := 4300.

(** The digits of a literal, as the limit counts them: leading zeros
    count, the sign and the underscores do not. *)
Fixpoint count_digits (s : bytes) : nat :=
  match s with
  | [] => 0
  | c :: s' => if is_digit c then S (count_digits s') else count_digits s'
  end.

(** [int(b)] in base 10 for a [bytes] without surrounding whitespace
    (at both call sites the argument has none): an optional sign, then
    digits.  A malformed literal raises [ValueError], and so does a
    literal of more than [int_max_str_digits] digits.  The result is an
    unbounded integer. *)
Definition int_of_bytes (s : bytes) : result Z :=
  let r :=
    match s with
    | c :: s' =>
        if bool_decide (c = "+"%byte) then int_unsigned s'
        else if bool_decide (c = "-"%byte) then Z.opp <$> int_unsigned s'
        else int_unsigned s
    | [] => None
    end in
  match r with
  | Some z =>
      if bool_decide (count_digits s <= int_max_str_digits)%nat then Ok z
      else Raise ValueError
  | None => Raise ValueError
  end.

(** [int(x)] for an [Optional[bytes]]: [int(None)] raises [TypeError]. *)
Definition int_of (x : option bytes) : result Z :=
  match x with
  | Some s => int_of_bytes s
  | None => Raise TypeError
  end.

Definition cons_word (w : bytes) (ws : list bytes) : list bytes :=
  match w with
  | [] => ws
  | _ => w :: ws
  end.

(** The word being read at the head of [s], and the words after it. *)
Fixpoint split_aux (s : bytes) : bytes * list bytes :=
  match s with
  | [] => ([], [])
  | c :: s' =>
      let '(w, ws) := split_aux s' in
      if is_space c then ([], cons_word w ws) else (c :: w, ws)
  end.

(** [s.split()]: the maximal runs of non-whitespace bytes. *)
Definition split (s : bytes) : list bytes :=
  let '(w, ws) := split_aux s in cons_word w ws.

(** [s.rstrip(chars)] *)
Fixpoint rstrip (chars : bytes) (s : bytes) : bytes :=
  match s with
  | [] => []
  | c :: s' =>
      match rstrip chars s' with
      | [] => if bool_decide (c ∈ chars) then [] else [c]
      | r => c :: r
      end
  end.

(** [s.ljust(width, fill)] *)
Definition ljust (s : bytes) (width : nat) (fill : byte) : bytes :=
  s ++ replicate (width - length s) fill.

(** ** [CrashLogProcessor.add_name] *)

(** Truthiness of an [Optional[bytes]]. *)
Definition truthy (x : option bytes) : bool :=
  match x with
  | Some (_ :: _) => true
  | _ => false
  end.

Definition add_name (line : bytes) (id_lookup : gmap Z bytes) (width : nat)
  : result bytes :=
  match re_match STACK_PATTERN line with
  | None => Ok line
  | Some m =>
      let stack_frame := group0 m in
      i ← int_of (group_of m Gid);
      let name := id_lookup !! i in
      if negb (truthy name) then Ok (stack_frame ++ [NL])
      else
        let name := rstrip (bs "_*") (default [] name) in
        Ok (ljust stack_frame width SPACE ++ name ++ [NL])
  end.

(** ** The file system and the collaborators

    A path either does not exist or is a regular file that can be read
    and written: directories, permissions and I/O errors are outside
    this model, and so are the exceptions they raise. *)

Abbreviation path := string.

Inductive event :=
| Deleted (p : path)                    (* delete_callback(p) was called *)
| Written (p : path) (content : bytes). (* p was opened "wb" and written *)

Record world := {
  files : gmap path bytes;
  events : list event;
}.

(** Code that reads and writes files and may raise. *)
Definition M (A : Type) : Type := world -> result A * world.

#[global] Instance M_ret : MRet M := fun _ a w => (Ok a, w).

#[global] Instance M_bind : MBind M := fun _ _ k c w =>
  match c w with
  | (Ok a, w') => k a w'
  | (Raise e, w') => (Raise e, w')
  end.

Definition lift {A} (r : result A) : M A := fun w => (r, w).

(** [f.readline()] on what is left of a binary file. *)
Fixpoint readline (data : bytes) : bytes * bytes :=
  match data with
  | [] => ([], [])
  | c :: data' =>
      if bool_decide (c = NL) then ([c], data')
      else let '(l, rest) := readline data' in (c :: l, rest)
  end.

(** The lines that successive [readline] calls return, up to the end
    of the file. *)
Fixpoint readlines (data : bytes) : list bytes :=
  match data with
  | [] => []
  | c :: data' =>
      if bool_decide (c = NL) then [c] :: readlines data'
      else
        match readlines data' with
        | [] => [[c]]
        | l :: ls => (c :: l) :: ls
        end
  end.

(** [path.open("rb")]: the unread lines of the file. *)
Definition open_rb (p : path) : M (list bytes) := fun w =>
  match files w !! p with
  | Some data => (Ok (readlines data), w)
  | None => (Raise FileNotFoundError, w)
  end.

(** [path.open("wb")] followed by the writes that make up [data]. *)
Definition write_wb (p : path) (data : bytes) : M unit := fun w =>
  (Ok (), {| files := <[p := data]> (files w);
             events := events w ++ [Written p data] |}).

(** ** [CrashLog] *)

Record CrashLog := {
  pre_call_stack : list bytes;
  call_stack : list bytes;
  post_call_stack : list bytes;
  changed : bool;
}.

Definition CALL_STACK_MARKER : bytes := bs "PROBABLE CALL STACK:" ++ [NL].
Definition REGISTERS_MARKER : bytes := bs "REGISTERS:" ++ [NL].

Definition append_pre (line : bytes) (d : CrashLog) : CrashLog :=
  {| pre_call_stack := pre_call_stack d ++ [line];
     call_stack := call_stack d;
     post_call_stack := post_call_stack d;
     changed := changed d |}.

Definition append_stack (line : bytes) (d : CrashLog) : CrashLog :=
  {| pre_call_stack := pre_call_stack d;
     call_stack := call_stack d ++ [line];
     post_call_stack := post_call_stack d;
     changed := changed d |}.

Definition append_post (line : bytes) (d : CrashLog) : CrashLog :=
  {| pre_call_stack := pre_call_stack d;
     call_stack := call_stack d;
     post_call_stack := post_call_stack d ++ [line];
     changed := changed d |}.

(** The third loop of [read_file]: [line] is the line in hand, [f] the
    unread lines. *)
Fixpoint read_post (line : bytes) (f : list bytes) (d : CrashLog) : CrashLog :=
  let d := append_post line d in
  match f with
  | [] => d
  | line' :: f' => read_post line' f' d
  end.

(** The second loop of [read_file]. *)
Fixpoint read_stack (f : list bytes) (d : CrashLog) : CrashLog :=
  match f with
  | [] => d
  | line :: f' =>
      if bool_decide (line = [NL]) then read_post line f' d
      else if bool_decide (line = REGISTERS_MARKER) then
        read_post line f' (append_post [NL] d)
      else read_stack f' (append_stack line d)
  end.

(** The first loop of [read_file]. *)
Fixpoint read_pre (f : list bytes) (d : CrashLog) : CrashLog :=
  match f with
  | [] => d
  | line :: f' =>
      let d := append_pre line d in
      if bool_decide (line = CALL_STACK_MARKER) then read_stack f' d
      else read_pre f' d
  end.

Definition read_file (p : path) (self : CrashLog) : M CrashLog :=
  f ← open_rb p; mret (read_pre f self).

(** [CrashLog(path)] *)
Definition CrashLog_init (p : path) : M CrashLog :=
  read_file p {| pre_call_stack := []; call_stack := [];
                 post_call_stack := []; changed := false |}.

(** What the three [writelines] calls of [write_file] put in the file. *)
Definition serialize (self : CrashLog) : bytes :=
  concat (pre_call_stack self) ++ concat (call_stack self)
    ++ concat (post_call_stack self).

Definition write_file (self : CrashLog) (p : path) : M unit :=
  write_wb p (serialize self).

(** [[callback(line) for line in lines]]; a raising callback ends it. *)
Fixpoint map_lines (callback : bytes -> result bytes) (lines : list bytes)
  : result (list bytes) :=
  match lines with
  | [] => Ok []
  | line :: rest =>
      x ← callback line; xs ← map_lines callback rest; Ok (x :: xs)
  end.

Definition rewrite_call_stack (callback : bytes -> result bytes) (self : CrashLog)
  : result CrashLog :=
  new_call_stack ← map_lines callback (call_stack self);
  if bool_decide (new_call_stack ≠ call_stack self) then
    Ok {| pre_call_stack := pre_call_stack self;
          call_stack := new_call_stack;
          post_call_stack := post_call_stack self;
          changed := true |}
  else Ok self.

(** ** [IdScanner] *)

Record IdScanner := {
  f : list bytes;     (* the unread lines of the open database *)
  nextLine : bytes;
}.

(** [IdScanner(database).__enter__()], given the database file if it
    exists: the header line is read and dropped, the next one kept. *)
Definition IdScanner_enter (data : option bytes) : IdScanner :=
  match data with
  | Some data =>
      match readlines data with
      | [] => {| f := []; nextLine := [] |}
      | _header :: [] => {| f := []; nextLine := [] |}
      | _header :: line :: rest => {| f := rest; nextLine := line |}
      end
  | None => {| f := []; nextLine := [] |}
  end.

(** [line_id, name = tuple(line.split()); parsed_id = int(line_id)] *)
Definition parse_entry (line : bytes) : result (Z * bytes) :=
  match split line with
  | [line_id; name] => parsed_id ← int_of_bytes line_id; Ok (parsed_id, name)
  | _ => Raise ValueError
  end.

(** The loop of [IdScanner.find] with the cursor in hand. *)
Fixpoint find_from (addr_id : Z) (line : bytes) (rest : list bytes)
  : result (option bytes) * IdScanner :=
  let here := {| f := rest; nextLine := line |} in
  match line with
  | [] => (Ok None, here)
  | _ =>
      match parse_entry line with
      | Raise e => (Raise e, here)
      | Ok (parsed_id, name) =>
          if parsed_id =? addr_id then (Ok (Some name), here)
          else if parsed_id >? addr_id then (Ok None, here)
          else
            match rest with
            | [] => (Ok None, {| f := []; nextLine := [] |})
            | line' :: rest' => find_from addr_id line' rest'
            end
      end
  end.

Definition find (addr_id : Z) (self : IdScanner) : result (option bytes) * IdScanner :=
  find_from addr_id (nextLine self) (f self).

(** ** [CrashLogProcessor] *)

Record CrashLogProcessor := {
  database_path : path;                       (* get_database_path() *)
  delete_callback : path -> gmap path bytes -> gmap path bytes;
}.

(** The [for addr_id in id_list] loop of [lookup_ids]. *)
Fixpoint lookup_loop (id_list : list Z) (scanner : IdScanner) (lookup : gmap Z bytes)
  : result (gmap Z bytes) * IdScanner :=
  match id_list with
  | [] => (Ok lookup, scanner)
  | addr_id :: id_list' =>
      match find addr_id scanner with
      | (Raise e, scanner') => (Raise e, scanner')
      | (Ok name, scanner') =>
          lookup_loop id_list' scanner'
            (if truthy name then <[addr_id := default [] name]> lookup else lookup)
      end
  end.

(** [lookup_ids] given the database file, [None] if it does not exist. *)
Definition lookup_in (data : option bytes) (id_list : list Z) : result (gmap Z bytes) :=
  match data with
  | None => Ok ∅
  | Some _ => fst (lookup_loop id_list (IdScanner_enter data) ∅)
  end.

Definition lookup_ids (self : CrashLogProcessor) (id_list : list Z) : M (gmap Z bytes) :=
  fun w => (lookup_in (files w !! database_path self) id_list, w).

(** The first loop of [process_log]: the ids and the width. *)
Fixpoint scan_call_stack (lines : list bytes) (addr_ids : gset Z) (width : nat)
  : result (gset Z * nat) :=
  match lines with
  | [] => Ok (addr_ids, width)
  | line :: rest =>
      match re_match STACK_PATTERN line with
      | None => scan_call_stack rest addr_ids width
      | Some m =>
          i ← int_of (group_of m Gid);
          scan_call_stack rest ({[i]} ∪ addr_ids)
            (Nat.max width (length (group0 m) + 1))
      end
  end.

(** [sorted(addr_ids)] *)
Definition sorted (addr_ids : gset Z) : list Z := merge_sort Z.le (elements addr_ids).

Definition call_delete (self : CrashLogProcessor) (p : path) : M unit := fun w =>
  (Ok (), {| files := delete_callback self p (files w);
             events := events w ++ [Deleted p] |}).

Definition process_log (self : CrashLogProcessor) (log : path) : M unit :=
  crash_log ← CrashLog_init log;
  '(addr_ids, width) ← lift (scan_call_stack (call_stack crash_log) ∅ 0%nat);
  if bool_decide (addr_ids = ∅) then mret ()
  else
    let id_list := sorted addr_ids in
    id_lookup ← lookup_ids self id_list;
    if bool_decide (id_lookup = ∅) then mret ()
    else
      crash_log ← lift (rewrite_call_stack
                          (fun a_line => add_name a_line id_lookup width) crash_log);
      if changed crash_log then
        _ ← call_delete self log;
        write_file crash_log log
      else mret ().

(** ** [CrashLogLabeler]

    The two callbacks of the plugin, for a game that has a finder and
    with the [offline_mode] setting on, as it is by default, so that
    [update_database] is not called.  [found] is the set that
    [self.finder.get_crash_logs(self.organizer)] returned, [order] the
    order in which a set is iterated.  The state of the labeler after
    the call is returned beside the result. *)

Record CrashLogLabeler := {
  processor : CrashLogProcessor;
  processed_logs : gset path;
}.

(** [for log in logs: self.processor.process_log(log)] *)
Fixpoint process_logs (self : CrashLogProcessor) (logs : list path) : M unit :=
  match logs with
  | [] => mret ()
  | log :: rest => _ ← process_log self log; process_logs self rest
  end.

Definition onFinishedRunCallback (order : gset path -> list path)
    (self : CrashLogLabeler) (found : gset path) (w : world)
  : result unit * CrashLogLabeler * world :=
  let new_logs := found ∖ processed_logs self in
  if bool_decide (new_logs = ∅) then (Ok (), self, w)
  else
    match process_logs (processor self) (order new_logs) w with
    | (Ok _, w') =>
        (Ok (),
         {| processor := processor self;
            processed_logs := processed_logs self ∪ new_logs |}, w')
    | (Raise e, w') => (Raise e, self, w')
    end.

(** [new_processor] is the [CrashLogProcessor] the callback builds for
    the game. *)
Definition onUserInterfaceInitializedCallback (order : gset path -> list path)
    (new_processor : CrashLogProcessor)
    (self : CrashLogLabeler) (found : gset path) (w : world)
  : result unit * CrashLogLabeler * world :=
  match process_logs new_processor (order found) w with
  | (Ok _, w') =>
      (Ok (),
       {| processor := new_processor;
          processed_logs := processed_logs self ∪ found |}, w')
  | (Raise e, w') =>
      (Raise e,
       {| processor := new_processor; processed_logs := processed_logs self |}, w')
  end.

(** * Vocabulary of the statements *)

(** [parses r pos s cs]: [r] matches exactly the bytes [s], standing at
    offset [pos] of the subject, and captures [cs] (newest first). *)
Fixpoint parses (r : regex) (pos : nat) (s : bytes) (cs : caps) : Prop :=
  match r with
  | RSet c => (exists b, s = [b] /\ cset_mem c b = true) /\ cs = []
  | RLit l => s = l /\ cs = []
  | RStar c => Forall (fun b => cset_mem c b = true) s /\ cs = []
  | RPlus c => s <> [] /\ Forall (fun b => cset_mem c b = true) s /\ cs = []
  | RSeq r1 r2 =>
      exists s1 s2 c1 c2,
        s = s1 ++ s2 /\ parses r1 pos s1 c1
        /\ parses r2 (pos + length s1) s2 c2 /\ cs = c2 ++ c1
  | RGroup g r' =>
      exists c, parses r' pos s c /\ cs = (g, (pos, (pos + length s)%nat)) :: c
  end.

(** One or more decimal digits; one or more uppercase hex digits. *)
Definition digits (s : bytes) : Prop := s <> [] /\ Forall (fun b => is_digit b = true) s.

Definition hexes (s : bytes) : Prop := s <> [] /\ Forall (fun b => is_upper_hex b = true) s.

(** The frame text: tab, '[', spaces, digits, "] 0x", hex digits, a
    space, a run of bytes allowed by [run_ok], '+', hex digits. *)
Definition frame_text (run_ok : byte -> bool) (ft : bytes) : Prop :=
  exists sp num addr run off,
    ft = TAB :: "["%byte :: sp ++ num ++ bs "] 0x" ++ addr ++ SPACE :: run ++ "+"%byte :: off
    /\ Forall (fun b => b = SPACE) sp /\ digits num /\ hexes addr
    /\ Forall (fun b => run_ok b = true) run /\ hexes off.

(** A whole frame: the frame text, " -> ", the id, "+0x", hex digits. *)
Definition stack_frame (run_ok : byte -> bool) (g0 ft idd : bytes) : Prop :=
  exists moff,
    g0 = ft ++ bs " -> " ++ idd ++ bs "+0x" ++ moff
    /\ frame_text run_ok ft /\ digits idd /\ hexes moff.

(** A line that begins with a stack frame, the run after the address
    being made of the bytes [run_ok] allows. *)
Definition frame_line (run_ok : byte -> bool) (line : bytes) : Prop :=
  exists g0 ft idd rest, line = g0 ++ rest /\ stack_frame run_ok g0 ft idd.

Definition not_newline (b : byte) : bool := negb (bool_decide (b = NL)).

Definition non_space (b : byte) : bool := negb (bool_decide (b = SPACE)).

(** [STACK_PATTERN] with the byte set of its [.*] left open, to compare
    readings of the pattern. *)
Definition stack_pattern (run : cset) : regex :=
  RSeq (RGroup G1
          (RSeq (RSet (CByte TAB))
          (RSeq (RSet (CByte "["%byte))
          (RSeq (RStar (CByte SPACE))
          (RSeq (RPlus CDigit)
          (RSeq (RLit (bs "] 0x"))
          (RSeq (RPlus CUpperHex)
          (RSeq (RSet (CByte SPACE))
          (RSeq (RStar run)
          (RSeq (RSet (CByte "+"%byte))
                (RPlus CUpperHex)))))))))))
  (RSeq (RLit (bs " -> "))
  (RSeq (RGroup Gid (RPlus CDigit))
  (RSeq (RLit (bs "+0x"))
        (RPlus CUpperHex)))).

(** The [id] of a digit string. *)
Definition decimal (s : bytes) : Z :=
  foldl (fun acc b => 10 * acc + digit_val b) 0 s.

(** A word: non-empty, without whitespace. *)
Definition word (x : bytes) : Prop := x <> [] /\ Forall (fun b => is_space b = false) x.

(** The scanner standing in front of the lines [L]. *)
Definition scanner_of (L : list bytes) : IdScanner :=
  match L with
  | [] => {| f := []; nextLine := [] |}
  | line :: rest => {| f := rest; nextLine := line |}
  end.

(** The name the entries [E] give to [i]. *)
Fixpoint db_name (E : list (Z * bytes)) (i : Z) : option bytes :=
  match E with
  | [] => None
  | (j, name) :: E' => if j =? i then Some name else db_name E' i
  end.

(** The lines [L] parse to the entries [E]. *)
Definition entries_of (L : list bytes) (E : list (Z * bytes)) : Prop :=
  Forall2 (fun line e => parse_entry line = Ok e) L E.




(** The ids probed one after the other, results dropped. *)
Definition probe_all (ids : list Z) (sc : IdScanner) : IdScanner :=
  foldl (fun sc z => snd (find z sc)) sc ids.

(** The line under the cursor, if any, carries an id of at least [x]. *)
Definition barrier (x : Z) (sc : IdScanner) : Prop :=
  match nextLine sc with
  | [] => True
  | _ =>
      match parse_entry (nextLine sc) with
      | Ok (i, _) => x <= i
      | Raise _ => True
      end
  end.

(** Every name [lookup_ids] records is a word of the database. *)
Definition clean_names (lk : gmap Z bytes) : Prop :=
  forall i name, lk !! i = Some name -> word name.

Definition empty_log : CrashLog :=
  {| pre_call_stack := []; call_stack := []; post_call_stack := []; changed := false |}.

(** The document read from the file content [data]. *)
Definition parse_log (data : bytes) : CrashLog := read_pre (readlines data) empty_log.

(** Where the call stack of [f] ends at a "REGISTERS:" line: the lines
    before that line and the lines after it. *)
Fixpoint stack_cut (f : list bytes) : option (list bytes * list bytes) :=
  match f with
  | [] => None
  | line :: f' =>
      if bool_decide (line = [NL]) then None
      else if bool_decide (line = REGISTERS_MARKER) then Some ([], f')
      else prod_map (cons line) id <$> stack_cut f'
  end.

(** The same from the top of the file: the call stack starts after the
    first "PROBABLE CALL STACK:" line. *)
Fixpoint registers_cut (f : list bytes) : option (list bytes * list bytes) :=
  match f with
  | [] => None
  | line :: f' =>
      prod_map (cons line) id <$>
        (if bool_decide (line = CALL_STACK_MARKER) then stack_cut f' else registers_cut f')
  end.

(** [d] after a rewrite that replaced its call stack. *)
Definition with_changed (d : CrashLog) (new_call_stack : list bytes) : CrashLog :=
  {| pre_call_stack := pre_call_stack d; call_stack := new_call_stack;
     post_call_stack := post_call_stack d; changed := true |}.

(** The document as it stands once [process_log] has rewritten the call
    stack; [None] when [process_log] returned before. *)
Definition rewritten_log (self : CrashLogProcessor) (log : path) : M (option CrashLog) :=
  crash_log ← CrashLog_init log;
  '(addr_ids, width) ← lift (scan_call_stack (call_stack crash_log) ∅ 0%nat);
  if bool_decide (addr_ids = ∅) then mret None
  else
    id_lookup ← lookup_ids self (sorted addr_ids);
    if bool_decide (id_lookup = ∅) then mret None
    else
      crash_log ← lift (rewrite_call_stack
                          (fun a_line => add_name a_line id_lookup width) crash_log);
      mret (Some crash_log).

(** ** The matcher as a list of successes *)

(** A place where the matcher can hand over to its continuation: the
    position reached, the rest of the input, the groups. *)
Definition entry : Type := nat * bytes * caps.

Fixpoint lit_rest (l : bytes) (s : bytes) : option bytes :=
  match l with
  | [] => Some s
  | c :: l' =>
      match s with
      | b :: s' => if bool_decide (b = c) then lit_rest l' s' else None
      | [] => None
      end
  end.

(** The stops of a greedy repeat, longest first. *)
Fixpoint star_enum (c : cset) (pos : nat) (s : bytes) (cs : caps) : list entry :=
  match s with
  | b :: s' =>
      if cset_mem c b then star_enum c (S pos) s' cs ++ [(pos, s, cs)]
      else [(pos, s, cs)]
  | [] => [(pos, s, cs)]
  end.

(** Every way [r] matches a prefix of [s], in the order [run] tries
    them. *)
Fixpoint enum (r : regex) (pos : nat) (s : bytes) (cs : caps) : list entry :=
  match r with
  | RSet c =>
      match s with
      | b :: s' => if cset_mem c b then [(S pos, s', cs)] else []
      | [] => []
      end
  | RLit l =>
      match lit_rest l s with
      | Some s' => [((pos + length l)%nat, s', cs)]
      | None => []
      end
  | RStar c => star_enum c pos s cs
  | RPlus c =>
      match s with
      | b :: s' => if cset_mem c b then star_enum c (S pos) s' cs else []
      | [] => []
      end
  | RSeq r1 r2 => e ← enum r1 pos s cs; enum r2 e.1.1 e.1.2 e.2
  | RGroup g r' => (fun e : entry => (e.1.1, e.1.2, (g, (pos, e.1.1)) :: e.2)) <$> enum r' pos s cs
  end.

(** The first entry a continuation accepts. *)
Fixpoint first_some {R} (k : entry -> option R) (l : list entry) : option R :=
  match l with
  | [] => None
  | e :: l' =>
      match k e with
      | Some x => Some x
      | None => first_some k l'
      end
  end.

(** ** Lines *)

(** A line as [readline] returns it, the last one of a file apart: it
    ends in a newline and holds no other. *)
Definition full_line (line : bytes) : Prop :=
  exists body, line = body ++ [NL] /\ NL ∉ body.

(** The last line of a file may lack the newline. *)
Definition open_line (line : bytes) : Prop := line <> [] /\ NL ∉ line.

(** Lines that [readlines] can return: only the last may be open. *)
Fixpoint file_lines (ls : list bytes) : Prop :=
  match ls with
  | [] => True
  | l :: ls' => (full_line l \/ (open_line l /\ ls' = [])) /\ file_lines ls'
  end.

(** The segments of [d2] put behind those of [d1]. *)
Definition combine (d1 d2 : CrashLog) : CrashLog :=
  {| pre_call_stack := pre_call_stack d1 ++ pre_call_stack d2;
     call_stack := call_stack d1 ++ call_stack d2;
     post_call_stack := post_call_stack d1 ++ post_call_stack d2;
     changed := changed d1 |}.

(** How [read_file] cuts a file: the preamble ends with the first marker
    line (or there is no marker and nothing else), no call-stack line
    is blank or "REGISTERS:", the trailer starts with a blank line. *)
Definition segmented (pre cs post : list bytes) : Prop :=
  ((exists a, pre = a ++ [CALL_STACK_MARKER] /\ (CALL_STACK_MARKER ∉ a))
   \/ ((CALL_STACK_MARKER ∉ pre) /\ cs = [] /\ post = []))
  /\ Forall (fun line => line <> [NL] /\ line <> REGISTERS_MARKER) cs
  /\ (post = [] \/ exists post', post = [NL] :: post').

(** The unread part of the database as [find] sees it: nothing once
    [nextLine] is empty. *)
Definition unread (sc : IdScanner) : list bytes :=
  match nextLine sc with
  | [] => []
  | line => line :: f sc
  end.

(** The id of a matched line. *)
Definition frame_id (line : bytes) : option Z :=
  match re_match STACK_PATTERN line with
  | Some m =>
      match int_of (group_of m Gid) with
      | Ok i => Some i
      | Raise _ => None
      end
  | None => None
  end.

(** What [process_log] makes of one call-stack line when the database
    holds the entries [E] and the width is [width]. *)
Definition label_line (E : list (Z * bytes)) (width : nat) (line : bytes) : bytes :=
  match re_match STACK_PATTERN line with
  | None => line
  | Some m =>
      match frame_id line ≫= db_name E with
      | Some name => ljust (group0 m) width SPACE ++ rstrip (bs "_*") name ++ [NL]
      | None => group0 m ++ [NL]
      end
  end.

(** The id of the line, if the line matches, is within the limit of
    [int]. *)
Definition id_fits (line : bytes) : Prop :=
  forall m idd,
    re_match STACK_PATTERN line = Some m -> group_of m Gid = Some idd ->
    (length idd <= int_max_str_digits)%nat.

(** The line [add_name] returns, and the line itself where [add_name]
    raises. *)
Definition labelled (lk : gmap Z bytes) (width : nat) (line : bytes) : bytes :=
  match add_name line lk width with
  | Ok out => out
  | Raise _ => line
  end.

(** What [process_log] makes of a log that reads [data] when the
    database file is [db]: [Ok None] when it leaves the log alone,
    [Ok (Some out)] when it deletes the log and writes [out]. *)
Definition relabel (db : option bytes) (data : bytes) : result (option bytes) :=
  let d := parse_log data in
  match scan_call_stack (call_stack d) ∅ 0%nat with
  | Raise e => Raise e
  | Ok (ids, width) =>
      if bool_decide (ids = ∅) then Ok None
      else
        match lookup_in db (sorted ids) with
        | Raise e => Raise e
        | Ok lk =>
            if bool_decide (lk = ∅) then Ok None
            else
              let cs' := map (labelled lk width) (call_stack d) in
              if bool_decide (cs' ≠ call_stack d)
              then Ok (Some (serialize (with_changed d cs')))
              else Ok None
        end
  end.

(** [process_log] raises on a log with this content, [None] for a
    missing file. *)
Definition fails (db content : option bytes) : bool :=
  match content with
  | None => true
  | Some data =>
      match relabel db data with
      | Raise _ => true
      | Ok _ => false
      end
  end.

(** The content of a log once [process_log] has returned. *)
Definition final_content (db content : option bytes) : option bytes :=
  match content with
  | None => None
  | Some data =>
      match relabel db data with
      | Ok (Some out) => Some out
      | _ => Some data
      end
  end.

(** The deletion callback removes, at most, the file it is called on. *)
Definition deletes_only (self : CrashLogProcessor) : Prop :=
  forall p fs q, q <> p -> delete_callback self p fs !! q = fs !! q.

(** The deletion callback, called on another path, leaves the file [q]
    as it is. *)
Definition kept_by (self : CrashLogProcessor) (q : path) : Prop :=
  forall p fs, p <> q -> delete_callback self p fs !! q = fs !! q.

(** The file an event is about. *)
Definition event_path (e : event) : path :=
  match e with
  | Deleted p => p
  | Written p _ => p
  end.

(** * Sample data *)

Definition sample_db : bytes :=
  bs "id name" ++ [NL] ++ bs "5 a" ++ [NL] ++ bs "10 b" ++ [NL] ++ bs "20 c" ++ [NL].

(** An id of one digit more than [int] takes. *)
Definition long_id : bytes := replicate 4301 "1"%byte.


Definition sample_entries : list (Z * bytes) := [(5, bs "a"); (10, bs "b"); (20, bs "c")].

Definition sample_processor : CrashLogProcessor :=
  {| database_path := "db"; delete_callback := fun p fs => delete p fs |}.


Definition sample_registers_log : bytes := CALL_STACK_MARKER ++ REGISTERS_MARKER.

Definition sample_plain_log : bytes :=
  bs "crash" ++ [NL] ++ CALL_STACK_MARKER ++ bs "frame" ++ [NL] ++ [NL] ++ bs "rax" ++ [NL].

Definition sample_stack_log : CrashLog := parse_log sample_plain_log.

Definition shout (line : bytes) : bytes := "!"%byte :: line.

Definition sample_line : bytes :=
  [TAB] ++ bs "[  0] 0x00007FF6ABCDEF00 SkyrimSE.exe+01ABCDEF -> 12345+0x10" ++ [NL].

Definition sample_bare_line : bytes :=
  [TAB] ++ bs "[  0] 0x00007FF6ABCDEF00 SkyrimSE.exe+01ABCDEF -> 12345+0x10".

Definition spaced_line : bytes := [TAB] ++ bs "[0] 0x1 a b+1 -> 5+0x1" ++ [NL].

Definition sample_frame_log : bytes :=
  bs "crash" ++ [NL] ++ CALL_STACK_MARKER ++ sample_line ++ [NL] ++ bs "rax" ++ [NL].

Definition sample_symbol_db : bytes :=
  bs "id name" ++ [NL] ++ bs "12345 SomeFunction_" ++ [NL].

Definition sample_world (log : bytes) (db : option bytes) : world :=
  {| files := {[ "log" := log ]} ∪ from_option (fun data => {[ "db" := data ]}) ∅ db;
     events := [] |}.

Definition stale_line : bytes := [TAB] ++ bs "[1] 0x1 a+1 -> 5+0x1 stale" ++ [NL].

Definition sample_two_frames_log : bytes :=
  bs "crash" ++ [NL] ++ CALL_STACK_MARKER ++ sample_line ++ stale_line
    ++ [NL] ++ bs "rax" ++ [NL].

Definition sample_two_logs_world : world :=
  {| files := {[ "log" := sample_frame_log; "log2" := sample_two_frames_log;
                 "db" := sample_symbol_db ]};
     events := [] |}.

Definition sample_labeler : CrashLogLabeler :=
  {| processor := sample_processor; processed_logs := {[ "log" ]} |}.

Definition sample_fresh_labeler : CrashLogLabeler :=
  {| processor := sample_processor; processed_logs := ∅ |}.

(** An order of iteration: ascending. *)
Definition sample_order (s : gset path) : list path :=
  merge_sort (fun a b => String.leb a b) (elements s).

(** * The model on concrete inputs *)

Example int_plain : int_of_bytes (bs "12345") = Ok 12345.
Proof. reflexivity. Qed.

Example int_leading_zeros : int_of_bytes (bs "007") = Ok 7.
Proof. reflexivity. Qed.

Example int_underscore : int_of_bytes (bs "1_000") = Ok 1000.
Proof. reflexivity. Qed.

Example int_signed : int_of_bytes (bs "-7") = Ok (-7) /\ int_of_bytes (bs "+5") = Ok 5.
Proof. split; reflexivity. Qed.

Example int_malformed :
  int_of_bytes (bs "12a") = Raise ValueError
  /\ int_of_bytes (bs "1__0") = Raise ValueError
  /\ int_of_bytes (bs "_1") = Raise ValueError
  /\ int_of_bytes (bs "1_") = Raise ValueError
  /\ int_of_bytes (bs "+-1") = Raise ValueError
  /\ int_of_bytes [] = Raise ValueError.
Proof. repeat split; reflexivity. Qed.

(** The limit on the digits of a literal: 4300 pass, 4301 do not, and
    leading zeros count. *)
Example int_at_the_limit :
  int_of_bytes (replicate 4300 "1"%byte) = Ok (decimal (replicate 4300 "1"%byte))
  /\ int_of_bytes long_id = Raise ValueError
  /\ int_of_bytes (replicate 4301 "0"%byte) = Raise ValueError.
Proof. split_and!; vm_compute; reflexivity. Qed.

Example split_line : split (bs "  12  name " ++ [NL]) = [bs "12"; bs "name"].
Proof. reflexivity. Qed.

Example split_blank_line : split [NL] = [].
Proof. reflexivity. Qed.

Example rstrip_decoration :
  rstrip (bs "_*") (bs "a_b_*_") = bs "a_b" /\ rstrip (bs "_*") (bs "__") = [].
Proof. split; reflexivity. Qed.

Example ljust_pads : ljust (bs "ab") 5 SPACE = bs "ab   ".
Proof. reflexivity. Qed.

Example ljust_long : ljust (bs "abcdef") 3 SPACE = bs "abcdef".
Proof. reflexivity. Qed.

Example readlines_last_line_open :
  readlines (bs "a" ++ [NL] ++ [NL] ++ bs "b") = [bs "a" ++ [NL]; [NL]; bs "b"].
Proof. reflexivity. Qed.

Example match_sample_line :
  re_match STACK_PATTERN sample_line
  = Some {| m_string := sample_line; m_end := 61;
            m_groups := [(Gid, (51%nat, 56%nat)); (G1, (0%nat, 47%nat))] |}.
Proof. reflexivity. Qed.

(** The greedy [.*] runs to the last place from which the rest of the
    pattern still matches: the id is 7, not 5. *)
Example match_is_greedy :
  let line := [TAB] ++ bs "[0] 0x1 a+1 -> 5+0x1+2 -> 7+0x2 tail" ++ [x0d; NL] in
  (group0 <$> re_match STACK_PATTERN line)
    = Some ([TAB] ++ bs "[0] 0x1 a+1 -> 5+0x1+2 -> 7+0x2")
  /\ (re_match STACK_PATTERN line ≫= fun m => group_of m Gid) = Some (bs "7")
  /\ (re_match STACK_PATTERN line ≫= fun m => group_of m G1)
     = Some ([TAB] ++ bs "[0] 0x1 a+1 -> 5+0x1+2").
Proof. repeat split; reflexivity. Qed.

Example match_stops_at_newline :
  re_match STACK_PATTERN ([TAB] ++ bs "[0] 0x1 a" ++ [NL] ++ bs "b+1 -> 5+0x1") = None.
Proof. reflexivity. Qed.

Example parse_sample_log :
  parse_log sample_frame_log
  = {| pre_call_stack := [bs "crash" ++ [NL]; CALL_STACK_MARKER];
       call_stack := [sample_line];
       post_call_stack := [[NL]; bs "rax" ++ [NL]];
       changed := false |}.
Proof. reflexivity. Qed.

Example scanner_walk :
  let sc0 := IdScanner_enter (Some sample_db) in
  fst (find 10 sc0) = Ok (Some (bs "b"))
  /\ fst (find 20 (snd (find 10 sc0))) = Ok (Some (bs "c"))
  /\ fst (find 7 sc0) = Ok None
  /\ nextLine (snd (find 7 sc0)) = bs "10 b" ++ [NL].
Proof. repeat split; reflexivity. Qed.

Example scanner_bad_line :
  fst (find 3 (IdScanner_enter (Some (bs "id name" ++ [NL] ++ bs "oops" ++ [NL]))))
  = Raise ValueError.
Proof. reflexivity. Qed.

(** * The regular-expression engine against its declarative reading *)

Module ReFacts.

Section Engine.
Context {R : Type}.
Implicit Types (k : @cont R) (s : bytes) (cs : caps) (pos : nat).

Lemma lit_sound l : forall pos s cs k x,
  lit l pos s cs k = Some x ->
  exists s2, s = l ++ s2 /\ k (pos + length l)%nat s2 cs = Some x.
Proof.
  induction l as [|c l IH]; intros pos s cs k x H; simpl in *.
  - exists s. by rewrite Nat.add_0_r.
  - destruct s as [|b s]; [done|]. case_bool_decide; [|done]. subst b.
    destruct (IH _ _ _ _ _ H) as (s2 & -> & Hk). exists s2. split; [done|].
    by rewrite <- Nat.add_succ_comm.
Qed.

Lemma lit_complete l : forall pos s2 cs k,
  lit l pos (l ++ s2) cs k = k (pos + length l)%nat s2 cs.
Proof.
  induction l as [|c l IH]; intros pos s2 cs k; simpl.
  - by rewrite Nat.add_0_r.
  - rewrite bool_decide_eq_true_2 by done. rewrite IH.
    by rewrite <- Nat.add_succ_comm.
Qed.

Lemma star_sound c : forall s pos cs k x,
  star c pos s cs k = Some x ->
  exists s1 s2, s = s1 ++ s2 /\ Forall (fun b => cset_mem c b = true) s1
                /\ k (pos + length s1)%nat s2 cs = Some x.
Proof.
  induction s as [|b s IH]; intros pos cs k x H; simpl in H.
  - exists [], []. by rewrite Nat.add_0_r.
  - destruct (cset_mem c b) eqn:Hb.
    + destruct (star c (S pos) s cs k) as [r|] eqn:Hs.
      * inversion H; subst r. destruct (IH _ _ _ _ Hs) as (s1 & s2 & -> & Hall & Hk).
        exists (b :: s1), s2. split; [done|]. split; [by constructor|].
        simpl. by rewrite <- Nat.add_succ_comm.
      * exists [], (b :: s). by rewrite Nat.add_0_r.
    + exists [], (b :: s). by rewrite Nat.add_0_r.
Qed.

Lemma star_fallback c pos s cs k :
  is_Some (k pos s cs) -> is_Some (star c pos s cs k).
Proof.
  intros Hk. destruct s as [|b s]; simpl; [done|].
  destruct (cset_mem c b); [|done]. by destruct (star c (S pos) s cs k).
Qed.

Lemma star_complete c : forall s1 pos s2 cs k,
  Forall (fun b => cset_mem c b = true) s1 ->
  is_Some (k (pos + length s1)%nat s2 cs) ->
  is_Some (star c pos (s1 ++ s2) cs k).
Proof.
  induction s1 as [|b s1 IH]; intros pos s2 cs k Hall Hk.
  - rewrite Nat.add_0_r in Hk. by apply star_fallback.
  - inversion Hall as [|? ? Hb Hall']; subst. simpl. rewrite Hb.
    simpl in Hk. rewrite <- Nat.add_succ_comm in Hk.
    destruct (IH (S pos) s2 cs k Hall' Hk) as [r ->]. done.
Qed.

(** Whatever the matcher returns comes from a parse of a prefix. *)
Lemma run_sound r : forall pos s cs k x,
  run r pos s cs k = Some x ->
  exists s1 s2 c, s = s1 ++ s2 /\ parses r pos s1 c
                  /\ k (pos + length s1)%nat s2 (c ++ cs) = Some x.
Proof.
  induction r as [c|l|c|c|r1 IH1 r2 IH2|g r IH]; intros pos s cs k x H; simpl in H.
  - destruct s as [|b s]; [done|]. simpl in H.
    destruct (cset_mem c b) eqn:Hb; [|done].
    exists [b], s, []. simpl. rewrite Nat.add_1_r. eauto 10.
  - destruct (lit_sound _ _ _ _ _ _ H) as (s2 & -> & Hk).
    exists l, s2, []. simpl. eauto.
  - destruct (star_sound _ _ _ _ _ _ H) as (s1 & s2 & -> & Hall & Hk).
    exists s1, s2, []. simpl. eauto.
  - destruct s as [|b s]; [done|]. simpl in H.
    destruct (cset_mem c b) eqn:Hb; [|done].
    destruct (star_sound _ _ _ _ _ _ H) as (s1 & s2 & -> & Hall & Hk).
    exists (b :: s1), s2, []. simpl. rewrite <- Nat.add_succ_comm.
    split; [done|]. split; [|done]. split; [done|]. split; [by constructor|done].
  - destruct (IH1 _ _ _ _ _ H) as (a & rest & c1 & -> & Hp1 & H2).
    destruct (IH2 _ _ _ _ _ H2) as (b & s2 & c2 & -> & Hp2 & Hk).
    exists (a ++ b), s2, (c2 ++ c1). rewrite <- app_assoc. split; [done|].
    split; [simpl; eauto 10|].
    by rewrite length_app, Nat.add_assoc, <- app_assoc.
  - destruct (IH _ _ _ _ _ H) as (s1 & s2 & c & -> & Hp & Hk).
    exists s1, s2, ((g, (pos, (pos + length s1)%nat)) :: c). simpl. eauto.
Qed.

(** A parse of a prefix that the continuation accepts makes the
    matcher succeed (possibly through an earlier alternative). *)
Lemma run_complete r : forall pos s1 c s2 cs k,
  parses r pos s1 c ->
  (forall cs', is_Some (k (pos + length s1)%nat s2 cs')) ->
  is_Some (run r pos (s1 ++ s2) cs k).
Proof.
  induction r as [c0|l|c0|c0|r1 IH1 r2 IH2|g r IH];
    intros pos s1 c s2 cs k Hp Hk; simpl in Hp |- *.
  - destruct Hp as [(b & -> & Hb) _]. simpl. rewrite Hb.
    specialize (Hk cs). simpl in Hk. by rewrite Nat.add_1_r in Hk.
  - destruct Hp as [-> _]. rewrite lit_complete. apply Hk.
  - destruct Hp as [Hall _]. by apply star_complete.
  - destruct Hp as (Hne & Hall & _). destruct s1 as [|b s1]; [done|].
    inversion Hall as [|? ? Hb Hall']; subst. simpl. rewrite Hb.
    apply star_complete; [done|]. specialize (Hk cs). simpl in Hk.
    by rewrite <- Nat.add_succ_comm in Hk.
  - destruct Hp as (a & b & c1 & c2 & -> & Hp1 & Hp2 & _).
    rewrite <- app_assoc. eapply IH1; [exact Hp1|]. intros cs'.
    eapply IH2; [exact Hp2|]. intros cs''.
    specialize (Hk cs''). by rewrite length_app, Nat.add_assoc in Hk.
  - destruct Hp as (c' & Hp & _). eapply IH; [exact Hp|]. intros cs'. apply Hk.
Qed.
End Engine.

Lemma re_match_sound r line m :
  re_match r line = Some m ->
  exists s1 s2 c, line = s1 ++ s2 /\ parses r 0 s1 c
    /\ m = {| m_string := line; m_end := length s1; m_groups := c |}.
Proof.
  intros H. apply run_sound in H as (s1 & s2 & c & -> & Hp & Hk).
  exists s1, s2, c. rewrite app_nil_r in Hk. simpl in Hk. by inversion Hk.
Qed.

Lemma re_match_complete r s1 s2 c :
  parses r 0 s1 c -> is_Some (re_match r (s1 ++ s2)).
Proof. intros Hp. eapply run_complete; [exact Hp|]. intros; by eexists. Qed.

Lemma re_match_string r line m : re_match r line = Some m -> m_string m = line.
Proof. intros H. by apply re_match_sound in H as (? & ? & ? & _ & _ & ->). Qed.

End ReFacts.

Import ReFacts.

(** * The shape of a stack-frame line *)

Ltac destruct_ex_and :=
  repeat match goal with
    | H : exists _, _ |- _ => destruct H
    | H : _ /\ _ |- _ => destruct H
    end.

Lemma STACK_PATTERN_eq : STACK_PATTERN = stack_pattern CAny.
Proof. reflexivity. Qed.

Lemma parses_stack_pattern rc s c :
  parses (stack_pattern rc) 0 s c <->
  exists ft idd,
    stack_frame (cset_mem rc) s ft idd
    /\ c = [(Gid, ((length ft + 4)%nat, (length ft + 4 + length idd)%nat));
            (G1, (0%nat, length ft))].
Proof.
  split.
  - intros H. simpl in H. destruct_ex_and. subst.
    repeat match goal with
      | H : bool_decide _ = true |- _ => apply bool_decide_eq_true in H; subst
      end.
    eexists _, _. split; [|reflexivity].
    eexists. split; [reflexivity|]. split; [|done].
    eexists _, _, _, _, _. split; [reflexivity|].
    repeat split; try done.
    eapply Forall_impl; [eassumption|]. intros b Hb. by apply bool_decide_eq_true in Hb.
  - intros (ft & idd & (moff & -> & Hft & [Hi1 Hi2] & [Hm1 Hm2]) & ->).
    destruct Hft as (sp & num & addr & run & off & -> & Hsp & [Hn1 Hn2] & [Ha1 Ha2]
                     & Hrun & [Ho1 Ho2]).
    unfold stack_pattern. cbn [parses].
    eexists _, _, _, _. split; [reflexivity|]. split.
    + eexists. split; [|reflexivity].
      exists [TAB], ("["%byte :: sp ++ num ++ bs "] 0x" ++ addr ++ SPACE :: run ++ "+"%byte :: off), [], [].
      split; [done|]. split; [split; [by exists TAB|done]|]. split; [|done].
      exists ["["%byte], (sp ++ num ++ bs "] 0x" ++ addr ++ SPACE :: run ++ "+"%byte :: off), [], [].
      split; [done|]. split; [split; [by exists "["%byte|done]|]. split; [|done].
      exists sp, (num ++ bs "] 0x" ++ addr ++ SPACE :: run ++ "+"%byte :: off), [], [].
      split; [done|]. split.
      { split; [|done]. eapply Forall_impl; [exact Hsp|]. intros b ->. by apply bool_decide_eq_true. }
      split; [|done].
      exists num, (bs "] 0x" ++ addr ++ SPACE :: run ++ "+"%byte :: off), [], [].
      split; [done|]. split; [done|]. split; [|done].
      exists (bs "] 0x"), (addr ++ SPACE :: run ++ "+"%byte :: off), [], [].
      split; [done|]. split; [done|]. split; [|done].
      exists addr, (SPACE :: run ++ "+"%byte :: off), [], [].
      split; [done|]. split; [done|]. split; [|done].
      exists [SPACE], (run ++ "+"%byte :: off), [], [].
      split; [done|]. split; [split; [by exists SPACE|done]|]. split; [|done].
      exists run, ("+"%byte :: off), [], [].
      split; [done|]. split; [done|]. split; [|done].
      exists ["+"%byte], off, [], [].
      split; [done|]. split; [split; [by exists "+"%byte|done]|]. done.
    + split.
      2:{ instantiate (1 := [(Gid, (_, _))]). reflexivity. }
      eexists (bs " -> "), _, [], [(Gid, (_, _))]. split; [reflexivity|]. split; [done|].
      split; [|reflexivity].
      eexists idd, _, [(Gid, (_, _))], []. split; [reflexivity|]. split.
      { eexists. split; [done|]. reflexivity. }
      split; [|reflexivity].
      eexists (bs "+0x"), moff, [], []. done.
Qed.

Lemma find_group_stack a b c d :
  find_group Gid [(Gid, (a, b)); (G1, (c, d))] = Some (a, b)
  /\ find_group G1 [(Gid, (a, b)); (G1, (c, d))] = Some (c, d).
Proof. done. Qed.

(** What a match of the pattern looks like. *)
Lemma stack_pattern_match_inv rc line m :
  re_match (stack_pattern rc) line = Some m ->
  exists ft idd rest,
    line = group0 m ++ rest
    /\ stack_frame (cset_mem rc) (group0 m) ft idd
    /\ group_of m Gid = Some idd /\ group_of m G1 = Some ft.
Proof.
  intros H. apply re_match_sound in H as (s1 & s2 & c & -> & Hp & ->).
  apply parses_stack_pattern in Hp as (ft & idd & Hsf & ->).
  exists ft, idd, s2. unfold group0, group_of. cbn [m_string m_end m_groups].
  rewrite take_app_length. split; [done|]. split; [done|].
  destruct Hsf as (moff & -> & _).
  destruct (find_group_stack (length ft + 4) (length ft + 4 + length idd) 0 (length ft))
    as [-> ->].
  unfold span. split; f_equal.
  - replace (length ft + 4 + length idd - (length ft + 4))%nat with (length idd) by lia.
    rewrite <- !app_assoc.
    rewrite (app_assoc ft (bs " -> ")).
    rewrite drop_app_length' by (rewrite length_app; reflexivity).
    by rewrite take_app_length.
  - rewrite Nat.sub_0_r, drop_0, <- !app_assoc. by rewrite take_app_length.
Qed.

Lemma stack_pattern_match_iff rc line :
  is_Some (re_match (stack_pattern rc) line) <->
  exists g0 ft idd rest, line = g0 ++ rest /\ stack_frame (cset_mem rc) g0 ft idd.
Proof.
  split.
  - intros [m Hm]. apply stack_pattern_match_inv in Hm as (ft & idd & rest & ? & ? & _).
    by exists (group0 m), ft, idd, rest.
  - intros (g0 & ft & idd & rest & -> & Hsf).
    eapply re_match_complete, parses_stack_pattern. eauto.
Qed.

(** ** [int] on digit strings *)

Lemma digit_not_sign c :
  is_digit c = true -> c <> "+"%byte /\ c <> "-"%byte /\ c <> "_"%byte /\ c <> NL.
Proof. by destruct c. Qed.

Lemma digit_val_range c : is_digit c = true -> 0 <= digit_val c <= 9.
Proof. by destruct c; vm_compute. Qed.

Lemma int_digits_all s : forall acc,
  Forall (fun b => is_digit b = true) s ->
  int_digits acc s = Some (foldl (fun acc b => 10 * acc + digit_val b) acc s).
Proof.
  induction s as [|c s IH]; intros acc Hall; [done|].
  inversion Hall as [|? ? Hc Hs]; subst. simpl. rewrite Hc. by apply IH.
Qed.

Lemma count_digits_all s :
  Forall (fun b => is_digit b = true) s -> count_digits s = length s.
Proof.
  induction 1 as [|c s Hc _ IH]; [done|]. simpl. by rewrite Hc, IH.
Qed.

(** [int] on a string of digits: the number, up to the limit. *)
Lemma int_of_bytes_cases s :
  digits s ->
  int_of_bytes s =
    if bool_decide (length s <= int_max_str_digits)%nat then Ok (decimal s)
    else Raise ValueError.
Proof.
  intros [Hne Hall]. destruct s as [|c s]; [done|].
  pose proof (count_digits_all _ Hall) as Hcount.
  inversion Hall as [|? ? Hc Hs]; subst.
  destruct (digit_not_sign c Hc) as (Hp & Hm & _).
  unfold int_of_bytes. rewrite !bool_decide_eq_false_2 by done.
  unfold int_unsigned. rewrite Hc, int_digits_all by done. by rewrite Hcount.
Qed.

Lemma int_of_bytes_digits s :
  digits s -> (length s <= int_max_str_digits)%nat -> int_of_bytes s = Ok (decimal s).
Proof.
  intros Hd Hlen. by rewrite int_of_bytes_cases, bool_decide_eq_true_2.
Qed.

Lemma foldl_decimal_nonneg s : forall acc,
  0 <= acc -> Forall (fun b => is_digit b = true) s ->
  0 <= foldl (fun acc b => 10 * acc + digit_val b) acc s.
Proof.
  induction s as [|c s IH]; intros acc Hacc Hall; [done|].
  inversion Hall as [|? ? Hc Hs]; subst. simpl. apply IH; [|done].
  pose proof (digit_val_range c Hc). lia.
Qed.

(** The id group of a match is a string of digits: [int] gives its
    number, or raises when it is longer than the limit. *)
Lemma stack_match_int line m :
  re_match STACK_PATTERN line = Some m ->
  exists idd, digits idd /\ group_of m Gid = Some idd
              /\ int_of (group_of m Gid) =
                   if bool_decide (length idd <= int_max_str_digits)%nat
                   then Ok (decimal idd) else Raise ValueError.
Proof.
  intros H. apply (stack_pattern_match_inv CAny) in H as (ft & idd & rest & _ & Hsf & Hg & _).
  destruct Hsf as (moff & _ & _ & Hd & _).
  exists idd. rewrite Hg. simpl. by rewrite int_of_bytes_cases.
Qed.

Lemma stack_match_id line m :
  id_fits line -> re_match STACK_PATTERN line = Some m ->
  exists idd, digits idd /\ group_of m Gid = Some idd
              /\ int_of (group_of m Gid) = Ok (decimal idd).
Proof.
  intros Hfit H. destruct (stack_match_int _ _ H) as (idd & Hd & Hg & Hi).
  exists idd. rewrite Hi, bool_decide_eq_true_2 by (by eapply Hfit). done.
Qed.

(** A line fits exactly when [int] returns on its id. *)
Lemma id_fits_converts line m :
  re_match STACK_PATTERN line = Some m ->
  id_fits line <-> exists i, int_of (group_of m Gid) = Ok i.
Proof.
  intros H. destruct (stack_match_int _ _ H) as (idd & Hd & Hg & Hi). split.
  - intros Hfit. destruct (stack_match_id _ _ Hfit H) as (? & _ & _ & ?). eauto.
  - intros [i Hok] m' idd' Hm' Hg'. rewrite H in Hm'. simplify_eq.
    rewrite Hi in Hok. by case_bool_decide.
Qed.

Lemma id_fits_no_match line : re_match STACK_PATTERN line = None -> id_fits line.
Proof. intros H m idd Hm. by rewrite H in Hm. Qed.

Lemma int_of_raise x e : int_of x = Raise e -> e = ValueError \/ (x = None /\ e = TypeError).
Proof.
  destruct x as [s|]; simpl; [|intros [= <-]; by right].
  unfold int_of_bytes. intros H. left.
  destruct (match s with [] => None | _ => _ end); [case_bool_decide|]; by simplify_eq.
Qed.

(** ** [add_name], case by case *)

Lemma add_name_no_match line id_lookup width :
  re_match STACK_PATTERN line = None -> add_name line id_lookup width = Ok line.
Proof. intros H. unfold add_name. by rewrite H. Qed.

Lemma add_name_match line m i id_lookup width :
  re_match STACK_PATTERN line = Some m ->
  int_of (group_of m Gid) = Ok i ->
  add_name line id_lookup width =
    Ok (if truthy (id_lookup !! i)
        then ljust (group0 m) width SPACE
               ++ rstrip (bs "_*") (default [] (id_lookup !! i)) ++ [NL]
        else group0 m ++ [NL]).
Proof.
  intros Hm Hi. unfold add_name. rewrite Hm, Hi. simpl.
  by destruct (truthy (id_lookup !! i)).
Qed.

(** [add_name] returns on a line whose id fits, and on no other. *)
Lemma add_name_total line id_lookup width :
  id_fits line -> exists out, add_name line id_lookup width = Ok out.
Proof.
  intros Hfit. destruct (re_match STACK_PATTERN line) as [m|] eqn:Hm.
  - destruct (stack_match_id _ _ Hfit Hm) as (idd & _ & _ & Hi).
    rewrite (add_name_match _ _ _ _ _ Hm Hi). eauto.
  - rewrite add_name_no_match by done. eauto.
Qed.

Lemma add_name_fits line id_lookup width out :
  add_name line id_lookup width = Ok out -> id_fits line.
Proof.
  intros H. destruct (re_match STACK_PATTERN line) as [m|] eqn:Hm.
  - apply (id_fits_converts _ _ Hm). unfold add_name in H. rewrite Hm in H.
    destruct (int_of (group_of m Gid)) as [i|e]; [by exists i|done].
  - by apply id_fits_no_match.
Qed.

Lemma add_name_raise line id_lookup width e :
  add_name line id_lookup width = Raise e -> e = ValueError /\ ~ id_fits line.
Proof.
  intros H. unfold add_name in H.
  destruct (re_match STACK_PATTERN line) as [m|] eqn:Hm; [|done].
  destruct (stack_match_int _ _ Hm) as (idd & _ & Hg & Hi). rewrite Hi in H.
  case_bool_decide as Hlen; simpl in H.
  - by destruct (negb _).
  - inversion H; subst. split; [done|]. intros Hfit. apply Hlen. by eapply Hfit.
Qed.

(** ** [split], [rstrip] and newlines *)

Lemma cons_word_words w ws :
  Forall (fun b => is_space b = false) w -> Forall word ws -> Forall word (cons_word w ws).
Proof. intros Hw Hws. destruct w; [done|]. by constructor. Qed.

Lemma split_aux_words s : forall w ws,
  split_aux s = (w, ws) -> Forall (fun b => is_space b = false) w /\ Forall word ws.
Proof.
  induction s as [|c s IH]; intros w ws H; simpl in H.
  - by inversion H.
  - destruct (split_aux s) as [w' ws']. destruct (IH _ _ eq_refl) as [Hw Hws].
    destruct (is_space c) eqn:Hc; inversion H; subst.
    + split; [done|]. by apply cons_word_words.
    + split; [by constructor|done].
Qed.

Lemma split_words s : Forall word (split s).
Proof.
  unfold split. destruct (split_aux s) as [w ws] eqn:H.
  apply split_aux_words in H as [Hw Hws]. by apply cons_word_words.
Qed.





Lemma rstrip_spec chars s :
  exists tail,
    s = rstrip chars s ++ tail /\ Forall (fun b => b ∈ chars) tail
    /\ (forall x, last (rstrip chars s) = Some x -> x ∉ chars).
Proof.
  induction s as [|c s (tail & Hs & Htail & Hlast)]; simpl.
  - exists []. by split_and!.
  - destruct (rstrip chars s) as [|r rs] eqn:Hr.
    + case_bool_decide as Hc.
      * exists (c :: tail). simpl in Hs. subst s. split_and!; [done|by apply Forall_cons|done].
      * exists tail. simpl in Hs. subst s. split_and!; [done|done|].
        intros x [= <-]. done.
    + exists tail. rewrite Hs at 1. split_and!; [done|done|].
      intros x Hx. apply Hlast. rewrite last_cons in Hx.
      destruct (last (r :: rs)) eqn:E; [done|]. by apply last_None in E.
Qed.

Lemma rstrip_elem chars s x : x ∈ rstrip chars s -> x ∈ s.
Proof.
  destruct (rstrip_spec chars s) as (tail & Hs & _). intros Hx.
  rewrite Hs. apply elem_of_app. by left.
Qed.

Lemma hex_not_newline c : is_upper_hex c = true -> c <> NL.
Proof. by destruct c. Qed.

Lemma space_newline : is_space NL = true.
Proof. reflexivity. Qed.

(** No byte class of the pattern lets a newline in. *)
Lemma stack_frame_no_newline g0 ft idd :
  stack_frame not_newline g0 ft idd -> NL ∉ g0.
Proof.
  intros (moff & -> & (sp & num & addr & run & off & -> & Hsp & [_ Hnum] & [_ Haddr]
                       & Hrun & [_ Hoff]) & [_ Hidd] & [_ Hmoff]).
  assert (Hd : forall l, Forall (fun b => is_digit b = true) l -> Forall (fun b => b <> NL) l).
  { intros l Hl. eapply Forall_impl; [exact Hl|].
    intros b Hb. by apply digit_not_sign in Hb as (_ & _ & _ & ?). }
  assert (Hh : forall l, Forall (fun b => is_upper_hex b = true) l -> Forall (fun b => b <> NL) l).
  { intros l Hl. eapply Forall_impl; [exact Hl|]. intros b. apply hex_not_newline. }
  assert (Hall : Forall (fun b => b <> NL)
    ((TAB :: "["%byte :: sp ++ num ++ bs "] 0x" ++ addr ++ SPACE :: run ++ "+"%byte :: off)
       ++ bs " -> " ++ idd ++ bs "+0x" ++ moff)).
  { repeat first [ apply Forall_app; split | apply Forall_cons; split
                 | apply Forall_nil | by auto | done ].
    - eapply Forall_impl; [exact Hsp|]. by intros b ->.
    - eapply Forall_impl; [exact Hrun|]. intros b Hb ->. done. }
  intros Hin. rewrite Forall_forall in Hall. by apply (Hall NL).
Qed.

(** * The scanner over a sorted database *)

Lemma find_from_eq addr_id line rest :
  find_from addr_id line rest =
  let here := {| f := rest; nextLine := line |} in
  match line with
  | [] => (Ok None, here)
  | _ =>
      match parse_entry line with
      | Raise e => (Raise e, here)
      | Ok (parsed_id, name) =>
          if parsed_id =? addr_id then (Ok (Some name), here)
          else if parsed_id >? addr_id then (Ok None, here)
          else
            match rest with
            | [] => (Ok None, {| f := []; nextLine := [] |})
            | line' :: rest' => find_from addr_id line' rest'
            end
      end
  end.
Proof. by destruct rest. Qed.

Lemma parse_entry_ok line i name :
  parse_entry line = Ok (i, name) -> line <> [] /\ word name.
Proof.
  intros H. split; [by intros ->|].
  unfold parse_entry in H. pose proof (split_words line) as Hw.
  destruct (split line) as [|a [|b [|]]]; try done.
  destruct (int_of_bytes a); simpl in H; [|done]. inversion H; subst.
  by inversion Hw as [|? ? _ Hw']; inversion Hw'.
Qed.






Lemma db_name_above E i :
  Forall (fun j => i < j) (E.*1) -> db_name E i = None.
Proof.
  induction E as [|[j n] E IH]; [done|]. intros H. inversion H; subst. simpl in *.
  destruct (Z.eqb_spec j i); [lia|]. by apply IH.
Qed.


Lemma entries_words L E i name :
  entries_of L E -> db_name E i = Some name -> word name.
Proof.
  induction 1 as [|line [j n] L E Hp _ IH]; [done|]. simpl.
  destruct (j =? i); [|done]. intros [= <-]. by apply parse_entry_ok in Hp as [_ ?].
Qed.

(** One probe over a sorted database: the answer is the database's,
    and the cursor only moves forward, past ids below the probe. *)
Lemma find_from_spec i : forall rest line e E,
  parse_entry line = Ok e -> entries_of rest E ->
  StronglySorted Z.lt ((e :: E).*1) ->
  exists L' E',
    find_from i line rest = (Ok (db_name (e :: E) i), scanner_of L')
    /\ L' `suffix_of` (line :: rest)
    /\ entries_of L' E' /\ StronglySorted Z.lt (E'.*1)
    /\ (forall j, i <= j -> db_name E' j = db_name (e :: E) j).
Proof.
  induction rest as [|line' rest IH]; intros line [pi n] E Hp HE Hs;
    rewrite find_from_eq; cbn zeta;
    (destruct line as [|c l]; [done|]); rewrite Hp;
    inversion Hs as [|? ? Hs' Hall]; subst; simpl db_name.
  - inversion HE; subst.
    destruct (Z.eqb_spec pi i) as [->|Hne].
    { exists [c :: l], [(i, n)]. split_and!; try done. by constructor. }
    destruct (Z.gtb_spec pi i).
    { exists [c :: l], [(pi, n)]. split_and!; try done. by constructor. }
    exists [], []. split_and!; [done|apply suffix_nil|constructor|constructor|].
    intros j Hj. simpl. destruct (Z.eqb_spec pi j); [lia|done].
  - inversion HE as [|? e' ? E'' Hp' HE']; subst.
    destruct (Z.eqb_spec pi i) as [->|Hne].
    { exists ((c :: l) :: line' :: rest), ((i, n) :: e' :: E''). split_and!; try done.
      by constructor. }
    destruct (Z.gtb_spec pi i).
    { exists ((c :: l) :: line' :: rest), ((pi, n) :: e' :: E'').
      rewrite db_name_above.
      2:{ eapply Forall_impl; [exact Hall|]. simpl. lia. }
      split_and!; try done. by constructor. }
    destruct (IH line' e' E'' Hp' HE' Hs') as (L' & E' & Hf & Hsuf & HE2 & Hs2 & Hj).
    exists L', E'. split_and!; try done.
    + by apply suffix_cons_r.
    + intros j Hij. rewrite Hj by done. simpl.
      destruct (Z.eqb_spec pi j); [lia|done].
Qed.

Lemma find_spec i L E :
  entries_of L E -> StronglySorted Z.lt (E.*1) ->
  exists L' E',
    find i (scanner_of L) = (Ok (db_name E i), scanner_of L')
    /\ L' `suffix_of` L
    /\ entries_of L' E' /\ StronglySorted Z.lt (E'.*1)
    /\ (forall j, i <= j -> db_name E' j = db_name E j).
Proof.
  intros HE Hs. destruct HE as [|line e L E Hp HE].
  - exists [], []. split_and!; try done. constructor.
  - unfold find. simpl. by apply find_from_spec.
Qed.

(** The whole loop of [lookup_ids] over a sorted database and strictly
    ascending ids. *)
Lemma lookup_loop_spec : forall ids L E lk0,
  entries_of L E -> StronglySorted Z.lt (E.*1) -> StronglySorted Z.lt ids ->
  exists lk L',
    lookup_loop ids (scanner_of L) lk0 = (Ok lk, scanner_of L')
    /\ L' `suffix_of` L
    /\ forall j, lk !! j =
         if bool_decide (j ∈ ids) then
           match db_name E j with
           | Some n => Some n
           | None => lk0 !! j
           end
         else lk0 !! j.
Proof.
  induction ids as [|i ids IH]; intros L E lk0 HE Hs Hids.
  - exists lk0, L. split_and!; try done.
  - inversion Hids as [|? ? Hids' Hall]; subst.
    destruct (find_spec i L E HE Hs) as (L1 & E1 & Hf & Hsuf & HE1 & Hs1 & Hj).
    simpl. rewrite Hf.
    set (lk1 := if truthy (db_name E i) then <[i:=default [] (db_name E i)]> lk0 else lk0).
    destruct (IH L1 E1 lk1 HE1 Hs1 Hids') as (lk & L2 & Hl & Hsuf2 & Hlk).
    exists lk, L2. split_and!; [done|by etrans|].
    intros j. rewrite Hlk. rewrite Forall_forall in Hall.
    destruct (decide (j = i)) as [->|Hne].
    + rewrite (bool_decide_eq_false_2 (i ∈ ids)).
      2:{ intros Hin. apply Hall in Hin. lia. }
      rewrite bool_decide_eq_true_2 by (by left).
      unfold lk1. destruct (db_name E i) as [n|] eqn:Hn; [|done].
      destruct (entries_words _ _ _ _ HE Hn) as [Hne _].
      destruct n; [done|]. simpl. by rewrite lookup_insert_eq.
    + assert (Hlk1 : lk1 !! j = lk0 !! j).
      { unfold lk1. destruct (truthy _); [|done]. by rewrite lookup_insert_ne. }
      destruct (decide (j ∈ ids)) as [Hin|Hnin].
      * rewrite !bool_decide_eq_true_2 by (done || by right).
        rewrite Hj, Hlk1; [done|]. apply Hall in Hin. lia.
      * rewrite !bool_decide_eq_false_2; [done| |done].
        intros [?|?]%elem_of_cons; done.
Qed.

Lemma find_from_word i : forall rest line name sc,
  find_from i line rest = (Ok (Some name), sc) -> word name.
Proof.
  induction rest as [|line' rest IH]; intros line name sc; rewrite find_from_eq; cbn zeta;
    (destruct line as [|c l]; [done|]);
    destruct (parse_entry (c :: l)) as [[pi n]|] eqn:Hp; try done;
    destruct (pi =? i); try (intros [= <- _]; by apply parse_entry_ok in Hp as [_ ?]);
    destruct (pi >? i); try done.
  apply IH.
Qed.

Lemma lookup_loop_clean : forall ids sc lk0 lk sc',
  clean_names lk0 -> lookup_loop ids sc lk0 = (Ok lk, sc') -> clean_names lk.
Proof.
  induction ids as [|i ids IH]; intros sc lk0 lk sc' Hc H; simpl in H.
  - by inversion H; subst.
  - destruct (find i sc) as [[name|e] sc1] eqn:Hf; [|done].
    eapply IH; [|exact H]. destruct name as [[|c n]|]; simpl; try done.
    intros j name. destruct (decide (i = j)) as [->|Hne].
    + rewrite lookup_insert_eq. intros [= <-]. by apply find_from_word in Hf.
    + rewrite lookup_insert_ne by done. apply Hc.
Qed.

Lemma lookup_in_clean data ids lk : lookup_in data ids = Ok lk -> clean_names lk.
Proof.
  destruct data as [data|]; unfold lookup_in.
  - destruct (lookup_loop ids (IdScanner_enter (Some data)) ∅) as [r sc] eqn:H.
    simpl. intros ->. eapply lookup_loop_clean; [|exact H]. by intros i name.
  - intros [= <-]. by intros i name.
Qed.

Lemma truthy_word name : word name -> truthy (Some name) = true.
Proof. intros [Hne _]. by destruct name. Qed.

Lemma IdScanner_enter_tail data :
  IdScanner_enter (Some data) = scanner_of (tail (readlines data)).
Proof. unfold IdScanner_enter. by destruct (readlines data) as [|h [|l r]]. Qed.

(** ** Probes out of order *)

Lemma barrier_mono x y sc : x <= y -> barrier y sc -> barrier x sc.
Proof.
  unfold barrier. destruct (nextLine sc); [done|].
  destruct (parse_entry _) as [[i n]|]; [lia|done].
Qed.

(** After a probe of [i] the cursor is at the end, or on a line that
    does not parse, or on an id of at least [i]. *)
Lemma find_from_barrier i : forall rest line,
  barrier i (snd (find_from i line rest)).
Proof.
  induction rest as [|line' rest IH]; intros line; rewrite find_from_eq; cbn zeta;
    (destruct line as [|c l]; [done|]);
    destruct (parse_entry (c :: l)) as [[pi n]|] eqn:Hp;
    try (by unfold barrier; simpl; rewrite Hp);
    destruct (Z.eqb_spec pi i) as [->|Hne];
    try (by unfold barrier; simpl; rewrite Hp);
    destruct (Z.gtb_spec pi i);
    try (by unfold barrier; simpl; rewrite Hp; lia).
  - done.
  - apply IH.
Qed.

(** A probe leaves the cursor where it is, or its id exceeds the one
    under the cursor. *)
Lemma find_from_stay_or_pass i rest line :
  snd (find_from i line rest) = {| f := rest; nextLine := line |}
  \/ exists pi n, parse_entry line = Ok (pi, n) /\ pi < i.
Proof.
  rewrite find_from_eq; cbn zeta. destruct line as [|c l]; [by left|].
  destruct (parse_entry (c :: l)) as [[pi n]|] eqn:Hp; [|by left].
  destruct (Z.eqb_spec pi i) as [->|Hne]; [by left|].
  destruct (Z.gtb_spec pi i); [by left|]. right. exists pi, n. split; [done|lia].
Qed.

Lemma find_barrier i sc : barrier i (snd (find i sc)).
Proof. apply find_from_barrier. Qed.

Lemma find_keeps_barrier x i sc : barrier x sc -> barrier x (snd (find i sc)).
Proof.
  intros Hx. unfold find.
  destruct (find_from_stay_or_pass i (f sc) (nextLine sc)) as [->|(pi & n & Hp & Hlt)].
  - by destruct sc.
  - apply (barrier_mono x i); [|apply find_from_barrier].
    unfold barrier in Hx. destruct (nextLine sc); [done|]. rewrite Hp in Hx. lia.
Qed.

Lemma probe_all_keeps_barrier x ids : forall sc,
  barrier x sc -> barrier x (probe_all ids sc).
Proof.
  induction ids as [|i ids IH]; intros sc Hx; [done|].
  apply IH. by apply find_keeps_barrier.
Qed.

(** Below the barrier a probe finds nothing and moves nothing. *)
Lemma find_below_barrier x y sc :
  barrier x sc -> y < x ->
  (forall name, fst (find y sc) <> Ok (Some name)) /\ snd (find y sc) = sc.
Proof.
  intros Hx Hy. unfold find, barrier in *. rewrite find_from_eq; cbn zeta.
  destruct sc as [rest line]. simpl in *.
  destruct line as [|c l]; [done|].
  destruct (parse_entry (c :: l)) as [[pi n]|]; [|done].
  destruct (Z.eqb_spec pi y) as [->|Hne]; [lia|].
  destruct (Z.gtb_spec pi y); [done|lia].
Qed.

Lemma find_from_found i : forall rest line name sc,
  find_from i line rest = (Ok (Some name), sc) ->
  nextLine sc <> [] /\ parse_entry (nextLine sc) = Ok (i, name).
Proof.
  induction rest as [|line' rest IH]; intros line name sc; rewrite find_from_eq; cbn zeta;
    (destruct line as [|c l]; [done|]);
    destruct (parse_entry (c :: l)) as [[pi n]|] eqn:Hp; try done;
    destruct (Z.eqb_spec pi i) as [->|Hne]; try (by intros [= <- <-]);
    destruct (pi >? i); try done.
  apply IH.
Qed.

(** [sorted(addr_ids)] is strictly ascending, as [lookup_ids] needs. *)
Lemma sorted_strictly_ascending (addr_ids : gset Z) : StronglySorted Z.lt (sorted addr_ids).
Proof.
  unfold sorted.
  assert (Hle : StronglySorted Z.le (merge_sort Z.le (elements addr_ids))).
  { apply StronglySorted_merge_sort; [apply _|]. intros x y. lia. }
  assert (Hnd : NoDup (merge_sort Z.le (elements addr_ids))).
  { rewrite merge_sort_Permutation. apply NoDup_elements. }
  induction Hle as [|x l Hl IH Hall]; [constructor|].
  apply NoDup_cons in Hnd as [Hx Hnd]. constructor; [by apply IH|].
  rewrite Forall_forall in Hall |- *. intros y Hy.
  specialize (Hall y Hy). assert (x <> y) by (by intros ->). lia.
Qed.

(** * The claims about the resolver *)






(** C4, as stated, fails on a duplicate: the cursor stays on the line it
    matched, so probing 10 twice finds "b" twice. *)
Lemma duplicate_probe_is_found :
  exists sc1 sc2,
    find 10 (IdScanner_enter (Some sample_db)) = (Ok (Some (bs "b")), sc1)
    /\ find 10 sc1 = (Ok (Some (bs "b")), sc2).
Proof. eexists _, _. split; reflexivity. Qed.

(** C4, amended. A probe smaller than an earlier probe never finds a
    name, whatever the database holds and whatever was probed in
    between; a probe repeated right after it found a name finds the
    same name again. *)
Theorem find_out_of_order sc x :
  (forall mid y name,
      y < x -> fst (find y (probe_all mid (snd (find x sc)))) <> Ok (Some name))
  /\ (forall name sc',
      find x sc = (Ok (Some name), sc') -> find x sc' = (Ok (Some name), sc')).
Proof.
  split.
  - intros mid y name Hy.
    apply (find_below_barrier x y); [|done].
    apply probe_all_keeps_barrier, find_barrier.
  - intros name sc' Hf. apply find_from_found in Hf as [Hne Hp].
    unfold find. rewrite find_from_eq. cbn zeta. destruct sc' as [rest line]. simpl in *.
    destruct line; [done|]. rewrite Hp, Z.eqb_refl. done.
Qed.

Lemma find_out_of_order_witness :
  10 < 20
  /\ fst (find 10 (probe_all [] (snd (find 20 (IdScanner_enter (Some sample_db))))))
     <> Ok (Some (bs "b"))
  /\ db_name sample_entries 10 = Some (bs "b").
Proof.
  split; [lia|]. split; [|reflexivity].
  apply (proj1 (find_out_of_order (IdScanner_enter (Some sample_db)) 20) [] 10 (bs "b")).
  lia.
Defined.

(** * The crash-log document *)

Lemma readline_readlines data :
  readlines data =
  match data with
  | [] => []
  | _ => (readline data).1 :: readlines (readline data).2
  end.
Proof.
  induction data as [|c data IH]; [done|]. simpl.
  case_bool_decide; [done|]. rewrite IH.
  destruct data as [|c' data']; [done|].
  by destruct (readline (c' :: data')).
Qed.

Lemma readlines_nonempty data : Forall (fun line => line <> []) (readlines data).
Proof.
  induction data as [|c data IH]; simpl; [constructor|].
  case_bool_decide; [by constructor|].
  destruct (readlines data) as [|l ls]; [by repeat constructor|].
  inversion IH; subst. by constructor.
Qed.

Lemma concat_readlines data : concat (readlines data) = data.
Proof.
  induction data as [|c data IH]; [done|]. simpl.
  case_bool_decide; simpl; [by rewrite IH|].
  destruct (readlines data) as [|l ls]; simpl in *; by rewrite <- IH.
Qed.

Lemma serialize_read_post : forall fl line d,
  serialize (read_post line fl d) = serialize d ++ line ++ concat fl.
Proof.
  induction fl as [|line' fl IH]; intros line d; simpl.
  - unfold serialize. simpl. rewrite concat_app. simpl. by rewrite !app_nil_r, <- !app_assoc.
  - rewrite IH. unfold serialize. simpl. rewrite concat_app. simpl.
    by rewrite !app_nil_r, <- !app_assoc.
Qed.

Lemma serialize_append_post line d :
  serialize (append_post line d) = serialize d ++ line.
Proof.
  unfold serialize. simpl. rewrite concat_app. simpl. by rewrite app_nil_r, <- !app_assoc.
Qed.

Lemma serialize_append_stack line d :
  post_call_stack d = [] -> serialize (append_stack line d) = serialize d ++ line.
Proof.
  intros H. unfold serialize. simpl. rewrite H, concat_app. simpl.
  by rewrite !app_nil_r, <- !app_assoc.
Qed.

Lemma serialize_append_pre line d :
  call_stack d = [] -> post_call_stack d = [] ->
  serialize (append_pre line d) = serialize d ++ line.
Proof.
  intros H1 H2. unfold serialize. simpl. rewrite H1, H2, concat_app. simpl.
  by rewrite !app_nil_r.
Qed.

Lemma serialize_read_stack : forall fl d,
  post_call_stack d = [] ->
  serialize (read_stack fl d) =
    serialize d ++
    match stack_cut fl with
    | None => concat fl
    | Some (a, b) => concat a ++ [NL] ++ REGISTERS_MARKER ++ concat b
    end
  /\ match stack_cut fl with
     | None => True
     | Some (a, b) => fl = a ++ REGISTERS_MARKER :: b
     end.
Proof.
  induction fl as [|line fl IH]; intros d Hpost; simpl.
  - by rewrite app_nil_r.
  - case_bool_decide as Hnl; [by rewrite serialize_read_post|].
    case_bool_decide as Hreg.
    + subst line. rewrite serialize_read_post, serialize_append_post.
      by rewrite <- !app_assoc.
    + destruct (IH (append_stack line d) Hpost) as [Hser Hcut].
      rewrite Hser, serialize_append_stack by done.
      destruct (stack_cut fl) as [[a b]|]; simpl.
      * rewrite <- !app_assoc. split; [done|]. by rewrite Hcut.
      * by rewrite <- !app_assoc.
Qed.

Lemma serialize_read_pre : forall fl d,
  call_stack d = [] -> post_call_stack d = [] ->
  serialize (read_pre fl d) =
    serialize d ++
    match registers_cut fl with
    | None => concat fl
    | Some (a, b) => concat a ++ [NL] ++ REGISTERS_MARKER ++ concat b
    end
  /\ match registers_cut fl with
     | None => True
     | Some (a, b) => fl = a ++ REGISTERS_MARKER :: b
     end.
Proof.
  induction fl as [|line fl IH]; intros d Hcs Hpost; simpl.
  - by rewrite app_nil_r.
  - case_bool_decide as Hm.
    + destruct (serialize_read_stack fl (append_pre line d) Hpost) as [Hser Hcut].
      rewrite Hser, serialize_append_pre by done.
      destruct (stack_cut fl) as [[a b]|]; simpl.
      * rewrite <- !app_assoc. split; [done|]. by rewrite Hcut.
      * by rewrite <- !app_assoc.
    + destruct (IH (append_pre line d) Hcs Hpost) as [Hser Hcut].
      rewrite Hser, serialize_append_pre by done.
      destruct (registers_cut fl) as [[a b]|]; simpl.
      * rewrite <- !app_assoc. split; [done|]. by rewrite Hcut.
      * by rewrite <- !app_assoc.
Qed.

Lemma read_pre_changed : forall fl d, changed (read_pre fl d) = changed d.
Proof.
  assert (Hpost : forall fl line d, changed (read_post line fl d) = changed d).
  { induction fl as [|l fl IH]; intros line d; simpl; [done|]. by rewrite IH. }
  assert (Hstack : forall fl d, changed (read_stack fl d) = changed d).
  { induction fl as [|l fl IH]; intros d; simpl; [done|].
    repeat case_bool_decide; rewrite ?Hpost, ?IH; done. }
  induction fl as [|l fl IH]; intros d; simpl; [done|].
  case_bool_decide; rewrite ?Hstack, ?IH; done.
Qed.

Lemma CrashLog_init_parse p w :
  CrashLog_init p w =
  match files w !! p with
  | Some data => (Ok (parse_log data), w)
  | None => (Raise FileNotFoundError, w)
  end.
Proof.
  unfold CrashLog_init, read_file, open_rb, mbind, M_bind.
  by destruct (files w !! p).
Qed.

(** C3, as stated, fails when the call stack runs into "REGISTERS:":
    a blank line is written in front of that line. *)
Lemma roundtrip_inserts_blank_line :
  serialize (parse_log sample_registers_log) <> sample_registers_log
  /\ serialize (parse_log sample_registers_log)
     = CALL_STACK_MARKER ++ [NL] ++ REGISTERS_MARKER.
Proof. split; [|reflexivity]. by vm_compute. Qed.

(** C3, amended. Reading a file and writing the document back without
    a rewrite reproduces the file byte for byte unless the call stack
    is ended by a "REGISTERS:" line; in that case the output is the
    input with one blank line inserted in front of that line. *)
Theorem read_write_roundtrip p q w data :
  files w !! p = Some data ->
  exists d w',
    CrashLog_init p w = (Ok d, w) /\ changed d = false
    /\ write_file d q w = (Ok (), w')
    /\ files w' !! q = Some (serialize d)
    /\ match registers_cut (readlines data) with
       | None => serialize d = data
       | Some (a, b) =>
           data = concat a ++ REGISTERS_MARKER ++ concat b
           /\ serialize d = concat a ++ [NL] ++ REGISTERS_MARKER ++ concat b
       end.
Proof.
  intros Hp. rewrite CrashLog_init_parse, Hp.
  eexists _, _. split; [reflexivity|]. split; [by unfold parse_log; rewrite read_pre_changed|].
  split; [reflexivity|]. simpl. split; [by rewrite lookup_insert_eq|].
  destruct (serialize_read_pre (readlines data) empty_log eq_refl eq_refl) as [Hser Hcut].
  unfold parse_log. rewrite Hser. simpl.
  destruct (registers_cut (readlines data)) as [[a b]|].
  - split; [|done]. rewrite <- (concat_readlines data) at 1. rewrite Hcut.
    by rewrite concat_app.
  - apply concat_readlines.
Qed.

Lemma read_write_roundtrip_witness :
  exists d w',
    CrashLog_init "log" {| files := {[ "log" := sample_plain_log ]}; events := [] |}
      = (Ok d, {| files := {[ "log" := sample_plain_log ]}; events := [] |})
    /\ changed d = false
    /\ write_file d "out" {| files := {[ "log" := sample_plain_log ]}; events := [] |}
       = (Ok (), w')
    /\ files w' !! "out" = Some (serialize d)
    /\ serialize d = sample_plain_log.
Proof.
  exact (read_write_roundtrip "log" "out"
           {| files := {[ "log" := sample_plain_log ]}; events := [] |}
           sample_plain_log eq_refl).
Defined.

(** ** [rewrite_call_stack] *)

Lemma map_lines_pure (transform : bytes -> bytes) lines :
  map_lines (fun line => Ok (transform line)) lines = Ok (map transform lines).
Proof. induction lines as [|l ls IH]; [done|]. simpl. by rewrite IH. Qed.

Lemma rewrite_call_stack_pure transform d :
  rewrite_call_stack (fun line => Ok (transform line)) d =
  Ok (if bool_decide (map transform (call_stack d) ≠ call_stack d)
      then with_changed d (map transform (call_stack d)) else d).
Proof.
  unfold rewrite_call_stack. rewrite map_lines_pure. simpl. by case_bool_decide.
Qed.

(** C8, as stated, fails on a document that an earlier rewrite has
    already changed: the flag stays set when the next rewrite changes
    nothing. *)
Lemma changed_flag_is_sticky :
  exists d1 d2,
    rewrite_call_stack (fun line => Ok (shout line)) sample_stack_log = Ok d1
    /\ rewrite_call_stack (fun line => Ok (id line)) d1 = Ok d2
    /\ ~ (changed d2 = true <-> map id (call_stack d1) ≠ call_stack d1).
Proof.
  eexists _, _. split; [reflexivity|]. split; [reflexivity|].
  intros [H _]. by apply H.
Qed.

(** C8, amended. After [rewrite_call_stack(transform)] the changed flag
    is set iff it was set before or the transformed list differs from
    the call stack; when the two lists are equal the document is left
    as it was, otherwise the call stack is the transformed list. *)
Theorem rewrite_call_stack_changed (transform : bytes -> bytes) d :
  exists d',
    rewrite_call_stack (fun line => Ok (transform line)) d = Ok d'
    /\ (changed d' = true <->
        changed d = true \/ map transform (call_stack d) ≠ call_stack d)
    /\ (map transform (call_stack d) = call_stack d -> d' = d)
    /\ (map transform (call_stack d) ≠ call_stack d ->
        call_stack d' = map transform (call_stack d))
    /\ pre_call_stack d' = pre_call_stack d
    /\ post_call_stack d' = post_call_stack d.
Proof.
  rewrite rewrite_call_stack_pure. eexists. split; [reflexivity|].
  case_bool_decide as Hne; simpl; split_and!; try done; tauto.
Qed.

(** * [process_log] *)

(** The first loop returns when the id of every line fits, and raises
    [ValueError] when one does not. *)
Lemma scan_call_stack_total : forall lines ids width,
  Forall id_fits lines ->
  exists ids' width', scan_call_stack lines ids width = Ok (ids', width').
Proof.
  induction lines as [|line lines IH]; intros ids width Hfit; simpl; [eauto|].
  inversion Hfit as [|? ? Hl Hls]; subst.
  destruct (re_match STACK_PATTERN line) as [m|] eqn:Hm; [|by apply IH].
  destruct (stack_match_id _ _ Hl Hm) as (idd & _ & _ & ->). by apply IH.
Qed.

Lemma scan_call_stack_fits : forall lines ids width r,
  scan_call_stack lines ids width = Ok r -> Forall id_fits lines.
Proof.
  induction lines as [|line lines IH]; intros ids width r H; [constructor|].
  simpl in H. destruct (re_match STACK_PATTERN line) as [m|] eqn:Hm.
  - destruct (int_of (group_of m Gid)) as [i|e] eqn:Hi; [|done]. simpl in H.
    constructor; [|by eapply IH]. apply (id_fits_converts _ _ Hm). by exists i.
  - constructor; [by apply id_fits_no_match|by eapply IH].
Qed.

Lemma scan_call_stack_raise : forall lines ids width e,
  scan_call_stack lines ids width = Raise e ->
  e = ValueError /\ ~ Forall id_fits lines.
Proof.
  induction lines as [|line lines IH]; intros ids width e H; [done|].
  simpl in H. destruct (re_match STACK_PATTERN line) as [m|] eqn:Hm.
  - destruct (stack_match_int _ _ Hm) as (idd & _ & Hg & Hi). rewrite Hi in H.
    case_bool_decide as Hlen; simpl in H.
    + apply IH in H as [-> Hn]. split; [done|]. intros Hall. apply Hn.
      by inversion Hall.
    + inversion H; subst. split; [done|]. intros Hall. apply Hlen.
      inversion Hall as [|? ? Hl _]; subst. by eapply Hl.
  - apply IH in H as [-> Hn]. split; [done|]. intros Hall. apply Hn. by inversion Hall.
Qed.

Lemma scan_call_stack_no_match : forall lines ids width,
  Forall (fun line => re_match STACK_PATTERN line = None) lines ->
  scan_call_stack lines ids width = Ok (ids, width).
Proof.
  induction lines as [|line lines IH]; intros ids width Hall; [done|].
  inversion Hall as [|? ? Hl Hls]; subst. simpl. rewrite Hl. by apply IH.
Qed.

Lemma process_log_unfold self log w :
  process_log self log w =
  match rewritten_log self log w with
  | (Ok (Some d), _) =>
      if changed d then
        (Ok (), {| files := <[log := serialize d]> (delete_callback self log (files w));
                   events := events w ++ [Deleted log; Written log (serialize d)] |})
      else (Ok (), w)
  | (Ok None, _) => (Ok (), w)
  | (Raise e, _) => (Raise e, w)
  end.
Proof.
  unfold process_log, rewritten_log, mbind, M_bind, mret, M_ret, lift.
  rewrite CrashLog_init_parse. destruct (files w !! log) as [data|]; [|done].
  destruct (scan_call_stack _ _ _) as [[ids width]|e]; [|done].
  case_bool_decide; [done|].
  unfold lookup_ids. destruct (lookup_in _ _) as [lk|e]; [|done].
  case_bool_decide; [done|].
  destruct (rewrite_call_stack _ _) as [d|e]; [|done].
  destruct (changed d); [|done].
  unfold call_delete, write_file, write_wb. simpl. by rewrite <- app_assoc.
Qed.

(** C6. When no call-stack line matches the pattern, or the database
    file does not exist, or the mapping comes back empty, [process_log]
    leaves every file as it was and records no call of the deletion
    callback (and no write), whether it returns or raises; it returns
    when the log exists and the id of every matching line is within
    the limit of [int]. *)
Theorem process_log_untouched self log w :
  (exists data,
      files w !! log = Some data
      /\ Forall (fun line => re_match STACK_PATTERN line = None)
           (call_stack (parse_log data)))
  \/ files w !! database_path self = None
  \/ (exists data ids width,
      files w !! log = Some data
      /\ scan_call_stack (call_stack (parse_log data)) ∅ 0%nat = Ok (ids, width)
      /\ lookup_ids self (sorted ids) w = (Ok ∅, w)) ->
  snd (process_log self log w) = w
  /\ (forall data,
        files w !! log = Some data ->
        Forall id_fits (call_stack (parse_log data)) ->
        fst (process_log self log w) = Ok ()).
Proof.
  intros Hcase.
  unfold process_log, mbind, M_bind, mret, M_ret, lift.
  rewrite CrashLog_init_parse.
  destruct (files w !! log) as [data|] eqn:Hlog; [|done].
  destruct (scan_call_stack (call_stack (parse_log data)) ∅ 0%nat)
    as [[ids width]|e] eqn:Hscan.
  2:{ split; [done|]. intros data' [= <-] Hfit.
      by apply scan_call_stack_raise in Hscan as [_ Hn]. }
  case_bool_decide as Hids; [done|].
  destruct Hcase as [(data' & [= <-] & Hnone)|[Hdb|(data' & ids' & width' & [= <-] & Hscan' & Hlk)]].
  - rewrite scan_call_stack_no_match in Hscan by done. by inversion Hscan; subst.
  - unfold lookup_ids. rewrite Hdb. simpl. by rewrite bool_decide_eq_true_2.
  - rewrite Hscan in Hscan'. injection Hscan' as <- <-. rewrite Hlk.
    by rewrite bool_decide_eq_true_2.
Qed.

Lemma process_log_untouched_witness :
  (* no frame in the call stack *)
  snd (process_log sample_processor "log" (sample_world sample_plain_log (Some sample_symbol_db)))
    = sample_world sample_plain_log (Some sample_symbol_db)
  (* no database *)
  /\ snd (process_log sample_processor "log" (sample_world sample_frame_log None))
     = sample_world sample_frame_log None
  (* a database without the id *)
  /\ snd (process_log sample_processor "log" (sample_world sample_frame_log (Some sample_db)))
     = sample_world sample_frame_log (Some sample_db).
Proof.
  split_and!.
  - apply (process_log_untouched sample_processor "log"
             (sample_world sample_plain_log (Some sample_symbol_db))).
    left. exists sample_plain_log. split; [reflexivity|]. by repeat constructor.
  - apply (process_log_untouched sample_processor "log" (sample_world sample_frame_log None)).
    right. left. reflexivity.
  - apply (process_log_untouched sample_processor "log"
             (sample_world sample_frame_log (Some sample_db))).
    right. right. exists sample_frame_log, {[ 12345 ]}, 62%nat.
    split; [reflexivity|]. split; [reflexivity|]. reflexivity.
Defined.

(** C7. When the rewritten document has its changed flag set,
    [process_log] calls the deletion callback once, on the path of the
    log, and then writes the new content to that same path; when the
    flag is not set, or [process_log] returned before the rewrite, no
    callback and no write happen. *)
Theorem process_log_delete_then_write self log w :
  (forall d,
      fst (rewritten_log self log w) = Ok (Some d) -> changed d = true ->
      process_log self log w =
        (Ok (), {| files := <[log := serialize d]> (delete_callback self log (files w));
                   events := events w ++ [Deleted log; Written log (serialize d)] |}))
  /\ (forall d,
      fst (rewritten_log self log w) = Ok (Some d) -> changed d = false ->
      process_log self log w = (Ok (), w))
  /\ (fst (rewritten_log self log w) = Ok None -> process_log self log w = (Ok (), w))
  /\ (forall e,
      fst (rewritten_log self log w) = Raise e -> process_log self log w = (Raise e, w)).
Proof.
  rewrite process_log_unfold.
  destruct (rewritten_log self log w) as [[[d|]|e] w']; simpl;
    split_and!; try done; intros ? [= <-]; try done; intros Hc; by rewrite Hc.
Qed.

Lemma process_log_delete_then_write_witness :
  exists d,
    fst (rewritten_log sample_processor "log"
           (sample_world sample_frame_log (Some sample_symbol_db))) = Ok (Some d)
    /\ changed d = true
    /\ process_log sample_processor "log"
         (sample_world sample_frame_log (Some sample_symbol_db))
       = (Ok (), {| files := {[ "log" := serialize d; "db" := sample_symbol_db ]};
                    events := [Deleted "log"; Written "log" (serialize d)] |}).
Proof.
  eexists. split; [reflexivity|]. split; [reflexivity|].
  etrans.
  - apply (proj1 (process_log_delete_then_write sample_processor "log"
                    (sample_world sample_frame_log (Some sample_symbol_db))));
      reflexivity.
  - reflexivity.
Defined.

(** * The claims about [add_name] *)

Lemma scan_call_stack_width : forall lines ids width ids' width',
  scan_call_stack lines ids width = Ok (ids', width') ->
  (width <= width')%nat
  /\ (forall line m, line ∈ lines -> re_match STACK_PATTERN line = Some m ->
                     (length (group0 m) + 1 <= width')%nat)
  /\ (width' = width
      \/ exists line m, line ∈ lines /\ re_match STACK_PATTERN line = Some m
                        /\ width' = (length (group0 m) + 1)%nat).
Proof.
  induction lines as [|line lines IH]; intros ids width ids' width' H; simpl in H.
  - inversion H; subst. split_and!; [done| |by left]. by intros ? ? ?%elem_of_nil.
  - destruct (re_match STACK_PATTERN line) as [m|] eqn:Hm.
    + destruct (int_of (group_of m Gid)) as [i|e]; [|done]. simpl in H.
      apply IH in H as (Hle & Hall & Hex). split_and!.
      * lia.
      * intros line' m' [->|Hin]%elem_of_cons Hm'; [|by eapply Hall].
        rewrite Hm in Hm'. inversion Hm'; subst. lia.
      * destruct Hex as [->|(line' & m' & Hin & Hm' & ->)].
        -- destruct (Nat.max_spec width (length (group0 m) + 1)) as [[_ ->]|[_ ->]].
           ++ right. exists line, m. split_and!; [by left|done|done].
           ++ by left.
        -- right. exists line', m'. split_and!; [by right|done|done].
    + apply IH in H as (Hle & Hall & Hex). split_and!; [done| |].
      * intros line' m' [->|Hin]%elem_of_cons Hm'; [congruence|by eapply Hall].
      * destruct Hex as [->|(line' & m' & Hin & Hm' & ->)]; [by left|].
        right. exists line', m'. split_and!; [by right|done|done].
Qed.







(** C9, as stated, fails: the run after the address may hold spaces. *)
Lemma pattern_allows_spaces :
  is_Some (re_match STACK_PATTERN spaced_line)
  /\ ~ frame_line non_space spaced_line
  /\ add_name spaced_line {[ 5 := bs "f" ]} 24 <> Ok spaced_line
  /\ add_name spaced_line {[ 5 := bs "f" ]} 24
     = Ok ([TAB] ++ bs "[0] 0x1 a b+1 -> 5+0x1 f" ++ [NL]).
Proof.
  split; [by eexists|]. split; [|split; [|reflexivity]].
  - intros H. apply (stack_pattern_match_iff (CNot SPACE)) in H.
    vm_compute in H. by destruct H.
  - intros H.
    apply (f_equal (fun r => match r with Ok l => length l | Raise _ => 0%nat end)) in H.
    by vm_compute in H.
Qed.

(** C9, amended. A line is recognized as a stack frame iff it begins
    with: a tab, '[', zero or more spaces, decimal digits, ']', a space,
    "0x" and uppercase hex digits, a space, a run of any bytes but a
    newline (spaces allowed) followed by '+' and uppercase hex digits,
    " -> ", decimal digits (captured as the id), "+0x" and uppercase
    hex digits; a line that does not is returned by [add_name]
    unchanged. *)
Theorem stack_pattern_shape line :
  (is_Some (re_match STACK_PATTERN line) <-> frame_line not_newline line)
  /\ (forall m, re_match STACK_PATTERN line = Some m ->
        exists ft idd rest,
          line = group0 m ++ rest /\ stack_frame not_newline (group0 m) ft idd
          /\ group_of m Gid = Some idd)
  /\ (forall id_lookup width,
        ~ frame_line not_newline line -> add_name line id_lookup width = Ok line).
Proof.
  split_and!.
  - apply (stack_pattern_match_iff CAny).
  - intros m Hm.
    apply (stack_pattern_match_inv CAny) in Hm as (ft & idd & rest & ? & ? & ? & _).
    by exists ft, idd, rest.
  - intros id_lookup width Hno. apply add_name_no_match.
    destruct (re_match STACK_PATTERN line) as [m|] eqn:Hm; [|done].
    destruct Hno. apply (stack_pattern_match_iff CAny). by eexists.
Qed.

Lemma stack_pattern_shape_witness :
  ~ frame_line not_newline (bs "REGISTERS:" ++ [NL])
  /\ add_name (bs "REGISTERS:" ++ [NL]) ∅ 0 = Ok (bs "REGISTERS:" ++ [NL]).
Proof.
  assert (H : ~ frame_line not_newline (bs "REGISTERS:" ++ [NL])).
  { intros H. apply (proj1 (stack_pattern_shape _)) in H. vm_compute in H. by destruct H. }
  split; [exact H|].
  exact (proj2 (proj2 (stack_pattern_shape (bs "REGISTERS:" ++ [NL]))) ∅ 0%nat H).
Defined.

(** C10, as stated, fails when the mapping holds a name with a
    newline in it: the output then ends in two. *)
Lemma name_with_newline_ends_in_two :
  is_Some (re_match STACK_PATTERN sample_line)
  /\ add_name sample_line {[ 12345 := bs "f" ++ [NL] ]} 62
     = Ok (sample_bare_line ++ bs " f" ++ [NL; NL]).
Proof. split; [by eexists|reflexivity]. Qed.

(** C10, amended. For a line that matches the pattern and whose id
    [int] converts, resolved or not, the output of [add_name] is a body
    followed by one newline; the body is made of the matched text (and,
    when resolved, the padding and the stripped name) only, so every
    byte of the line after the match is dropped and a line without a
    newline gains one.  The matched text and the padding hold no
    newline, so when the name the id is mapped to holds none, the body
    holds none and the output ends in exactly one newline. *)
Theorem add_name_line_end (id_lookup : gmap Z bytes) line m i width :
  re_match STACK_PATTERN line = Some m ->
  int_of (group_of m Gid) = Ok i ->
  exists body rest,
    line = group0 m ++ rest
    /\ add_name line id_lookup width = Ok (body ++ [NL])
    /\ (body = group0 m
        \/ exists name,
             id_lookup !! i = Some name /\ name <> []
             /\ body = ljust (group0 m) width SPACE ++ rstrip (bs "_*") name)
    /\ (NL ∉ ljust (group0 m) width SPACE)
    /\ ((forall name, id_lookup !! i = Some name -> NL ∉ name) -> NL ∉ body).
Proof.
  intros Hm Hi.
  destruct (stack_pattern_match_inv CAny _ _ Hm) as (ft & idd & rest & Hline & Hsf & Hg & _).
  pose proof (stack_frame_no_newline _ _ _ Hsf) as Hnl.
  assert (Hpad : NL ∉ ljust (group0 m) width SPACE).
  { unfold ljust. rewrite elem_of_app. intros [?|Hsp]; [done|].
    by apply elem_of_replicate_inv in Hsp. }
  rewrite (add_name_match _ _ _ _ _ Hm Hi).
  destruct (id_lookup !! i) as [name|] eqn:Hname.
  - destruct name as [|c name].
    + simpl. exists (group0 m), rest. split_and!; [done|done|by left|done|done].
    + simpl truthy. cbn iota. cbn [default from_option id].
      exists (ljust (group0 m) width SPACE ++ rstrip (bs "_*") (c :: name)), rest.
      split_and!; [done|by rewrite <- app_assoc| |done|].
      * right. by exists (c :: name).
      * intros Hclean. rewrite elem_of_app. intros [?|Hn]; [done|].
        apply rstrip_elem in Hn. by apply (Hclean (c :: name)).
  - simpl. exists (group0 m), rest. split_and!; [done|done|by left|done|done].
Qed.

Lemma add_name_line_end_witness :
  exists body rest,
    sample_bare_line ++ [x0d; NL] ++ bs "trailing"  = sample_bare_line ++ rest
    /\ add_name (sample_bare_line ++ [x0d; NL] ++ bs "trailing")
         {[ 12345 := bs "SomeFunction_" ]} 62 = Ok (body ++ [NL])
    /\ (body = sample_bare_line
        \/ exists name,
             ({[ 12345 := bs "SomeFunction_" ]} : gmap Z bytes) !! 12345 = Some name
             /\ name <> []
             /\ body = ljust sample_bare_line 62 SPACE ++ rstrip (bs "_*") name)
    /\ (NL ∉ ljust sample_bare_line 62 SPACE)
    /\ ((forall name,
           ({[ 12345 := bs "SomeFunction_" ]} : gmap Z bytes) !! 12345 = Some name ->
           NL ∉ name) ->
        NL ∉ body).
Proof.
  exact (add_name_line_end {[ 12345 := bs "SomeFunction_" ]}
           (sample_bare_line ++ [x0d; NL] ++ bs "trailing")
           {| m_string := sample_bare_line ++ [x0d; NL] ++ bs "trailing"; m_end := 61;
              m_groups := [(Gid, (51%nat, 56%nat)); (G1, (0%nat, 47%nat))] |}
           12345 62%nat eq_refl eq_refl).
Defined.

(** * The matcher as a list of successes *)

Module EnumFacts.

(** The entry [e] with [t] put back behind its rest. *)
Definition ext (t : bytes) (e : entry) : entry := (e.1.1, e.1.2 ++ t, e.2).

Lemma first_some_app {R} (k : entry -> option R) l1 l2 :
  first_some k (l1 ++ l2) =
  match first_some k l1 with
  | Some x => Some x
  | None => first_some k l2
  end.
Proof. induction l1 as [|e l1 IH]; [done|]. simpl. by destruct (k e). Qed.

Lemma first_some_ext {R} (k k' : entry -> option R) l :
  (forall e, k e = k' e) -> first_some k l = first_some k' l.
Proof. intros H. induction l as [|e l IH]; [done|]. simpl. by rewrite H, IH. Qed.

Lemma first_some_bind {R} (k : entry -> option R) (g : entry -> list entry) l :
  first_some k (l ≫= g) = first_some (fun e => first_some k (g e)) l.
Proof.
  induction l as [|e l IH]; [done|].
  change ((e :: l) ≫= g) with (g e ++ (l ≫= g)).
  rewrite first_some_app, IH. done.
Qed.

Lemma first_some_fmap {R} (k : entry -> option R) (g : entry -> entry) l :
  first_some k (g <$> l) = first_some (fun e => k (g e)) l.
Proof.
  induction l as [|e l IH]; [done|].
  change (g <$> e :: l) with (g e :: (g <$> l)). simpl. by rewrite IH.
Qed.

Lemma lit_rest_spec l : forall s s', lit_rest l s = Some s' <-> s = l ++ s'.
Proof.
  induction l as [|c l IH]; intros s s'; simpl.
  - split; [by intros [= ->]|by intros ->].
  - destruct s as [|b s]; [done|]. case_bool_decide as Hb.
    + subst b. rewrite IH. split; [by intros ->|by intros [= ->]].
    + split; [done|]. intros [= ? _]. done.
Qed.

Lemma lit_lit_rest {R} l : forall pos s cs (k : @cont R),
  lit l pos s cs k =
  match lit_rest l s with
  | Some s' => k (pos + length l)%nat s' cs
  | None => None
  end.
Proof.
  induction l as [|c l IH]; intros pos s cs k; simpl.
  - by rewrite Nat.add_0_r.
  - destruct s as [|b s]; [done|]. case_bool_decide; [|done].
    rewrite IH. by rewrite <- Nat.add_succ_comm.
Qed.

Lemma star_star_enum {R} c : forall s pos cs (k : @cont R),
  star c pos s cs k = first_some (fun e => k e.1.1 e.1.2 e.2) (star_enum c pos s cs).
Proof.
  induction s as [|b s IH]; intros pos cs k; simpl.
  - by destruct (k pos [] cs).
  - destruct (cset_mem c b).
    + rewrite first_some_app, <- IH. simpl.
      destruct (star c (S pos) s cs k); [done|]. by destruct (k pos (b :: s) cs).
    + simpl. by destruct (k pos (b :: s) cs).
Qed.

(** [run] hands its continuation the entries of [enum], in order, and
    stops at the first one accepted. *)
Lemma run_enum {R} r : forall pos s cs (k : @cont R),
  run r pos s cs k = first_some (fun e => k e.1.1 e.1.2 e.2) (enum r pos s cs).
Proof.
  induction r as [c|l|c|c|r1 IH1 r2 IH2|g r IH]; intros pos s cs k; simpl.
  - destruct s as [|b s]; [done|]. simpl. destruct (cset_mem c b); [|done].
    simpl. by destruct (k (S pos) s cs).
  - rewrite lit_lit_rest. destruct (lit_rest l s); [|done].
    simpl. by destruct (k _ _ _).
  - apply star_star_enum.
  - destruct s as [|b s]; [done|]. simpl. destruct (cset_mem c b); [|done].
    apply star_star_enum.
  - rewrite IH1, first_some_bind. apply first_some_ext. intros e. apply IH2.
  - rewrite IH, first_some_fmap. done.
Qed.

Lemma re_match_enum r line :
  re_match r line =
  (fun e : entry => {| m_string := line; m_end := e.1.1; m_groups := e.2 |})
    <$> head (enum r 0 line []).
Proof.
  unfold re_match. rewrite run_enum. by destruct (enum r 0 line []).
Qed.

Lemma star_enum_inv c : forall s pos cs e,
  e ∈ star_enum c pos s cs ->
  exists s1, s = s1 ++ e.1.2 /\ e.1.1 = (pos + length s1)%nat /\ e.2 = cs
             /\ Forall (fun b => cset_mem c b = true) s1.
Proof.
  induction s as [|b s IH]; intros pos cs e; simpl.
  - intros ->%list_elem_of_singleton. exists []. simpl. by rewrite Nat.add_0_r.
  - destruct (cset_mem c b) eqn:Hb.
    + rewrite elem_of_app, list_elem_of_singleton. intros [He| ->].
      * destruct (IH _ _ _ He) as (s1 & Hs & Hp & Hc & Hall).
        exists (b :: s1). simpl. rewrite Hs at 1. rewrite Hp.
        split_and!; [done|lia|done|by apply Forall_cons].
      * exists []. simpl. by rewrite Nat.add_0_r.
    + intros ->%list_elem_of_singleton. exists []. simpl. by rewrite Nat.add_0_r.
Qed.

(** Every entry comes from a parse of the bytes it has consumed. *)
Lemma enum_sound r : forall pos s cs e,
  e ∈ enum r pos s cs ->
  exists s1 c, s = s1 ++ e.1.2 /\ e.1.1 = (pos + length s1)%nat
               /\ e.2 = c ++ cs /\ parses r pos s1 c.
Proof.
  induction r as [c0|l|c0|c0|r1 IH1 r2 IH2|g r IH]; intros pos s cs e; simpl.
  - destruct s as [|b s]; [by intros ?%elem_of_nil|].
    destruct (cset_mem c0 b) eqn:Hb; [|by intros ?%elem_of_nil].
    intros ->%list_elem_of_singleton. exists [b], []. simpl.
    split; [done|]. split; [lia|]. split; [done|]. split; [by exists b|done].
  - destruct (lit_rest l s) as [s'|] eqn:Hl; [|by intros ?%elem_of_nil].
    intros ->%list_elem_of_singleton. apply lit_rest_spec in Hl as ->.
    exists l, []. by simpl.
  - intros He. destruct (star_enum_inv _ _ _ _ _ He) as (s1 & Hs & Hp & Hc & Hall).
    exists s1, []. by simpl.
  - destruct s as [|b s]; [by intros ?%elem_of_nil|].
    destruct (cset_mem c0 b) eqn:Hb; [|by intros ?%elem_of_nil].
    intros He. destruct (star_enum_inv _ _ _ _ _ He) as (s1 & Hs & Hp & Hc & Hall).
    destruct e as [[p rest] ce]. simpl in *. subst.
    exists (b :: s1), []. simpl.
    split; [done|]. split; [lia|]. split; [done|]. split; [done|].
    split; [by apply Forall_cons|done].
  - intros (e1 & He & He1)%list_elem_of_bind.
    destruct (IH1 _ _ _ _ He1) as (a & c1 & Hs & Hp & Hc & Hpa).
    destruct (IH2 _ _ _ _ He) as (b & c2 & Hs2 & Hp2 & Hc2 & Hpb).
    destruct e as [[p rest] ce], e1 as [[p1 rest1] ce1]. simpl in *. subst.
    exists (a ++ b), (c2 ++ c1).
    rewrite length_app, <- !app_assoc. split; [done|]. split; [lia|]. split; [done|].
    by exists a, b, c1, c2.
  - intros (e1 & -> & He1)%list_elem_of_fmap.
    destruct (IH _ _ _ _ He1) as (s1 & c & Hs & Hp & Hc & Hps).
    destruct e1 as [[p1 rest1] ce1]. simpl in *. subst.
    exists s1, ((g, (pos, (pos + length s1)%nat)) :: c). simpl.
    split; [done|]. split; [done|]. split; [done|]. by exists c.
Qed.

Lemma enum_ge r pos s cs e : e ∈ enum r pos s cs -> (pos <= e.1.1)%nat.
Proof.
  intros (s1 & c & _ & Hp & _)%enum_sound. destruct e as [[p rest] ce].
  simpl in *. lia.
Qed.

Lemma enum_length r pos s cs e :
  e ∈ enum r pos s cs -> (e.1.1 + length e.1.2 = pos + length s)%nat.
Proof.
  intros (s1 & c & Hs & Hp & _)%enum_sound. destruct e as [[p rest] ce].
  simpl in *. subst. rewrite length_app. lia.
Qed.

Section ListHelpers.
Context (P : entry -> Prop) `{Pdec : !forall e, Decision (P e)}.

Lemma filter_all_out (l : list entry) :
  (forall e, e ∈ l -> ~ P e) -> filter P l = [].
Proof.
  induction l as [|e l IH]; intros Hl; [done|].
  rewrite filter_cons_False by (apply Hl; by left).
  apply IH. intros e' He'. apply Hl. by right.
Qed.

Lemma filter_all_in (l : list entry) :
  (forall e, e ∈ l -> P e) -> filter P l = l.
Proof.
  induction l as [|e l IH]; intros Hl; [done|].
  rewrite filter_cons_True by (apply Hl; by left).
  f_equal. apply IH. intros e' He'. apply Hl. by right.
Qed.

Lemma filter_bind (l : list entry) (g : entry -> list entry) :
  filter P (l ≫= g) = l ≫= (fun x => filter P (g x)).
Proof.
  induction l as [|e l IH]; [done|].
  change ((e :: l) ≫= g) with (g e ++ (l ≫= g)).
  rewrite filter_app, IH. done.
Qed.

Lemma bind_filter_skip (l : list entry) (g : entry -> list entry) :
  (forall x, x ∈ l -> ~ P x -> g x = []) -> l ≫= g = filter P l ≫= g.
Proof.
  induction l as [|e l IH]; intros Hl; [done|].
  change ((e :: l) ≫= g) with (g e ++ (l ≫= g)).
  rewrite IH by (intros x Hx; apply Hl; by right).
  destruct (decide (P e)) as [Hp|Hp].
  - by rewrite filter_cons_True.
  - rewrite filter_cons_False by done. by rewrite (Hl e) by (done || by left).
Qed.
End ListHelpers.

Lemma bind_fmap_entry (h : entry -> entry) (l : list entry) (g : entry -> list entry) :
  (h <$> l) ≫= g = l ≫= (fun x => g (h x)).
Proof.
  induction l as [|e l IH]; [done|].
  change (h <$> e :: l) with (h e :: (h <$> l)).
  change ((h e :: (h <$> l)) ≫= g) with (g (h e) ++ ((h <$> l) ≫= g)).
  by rewrite IH.
Qed.

Lemma fmap_bind_entry (h : entry -> entry) (l : list entry) (g : entry -> list entry) :
  h <$> (l ≫= g) = l ≫= (fun x => h <$> g x).
Proof.
  induction l as [|e l IH]; [done|].
  change ((e :: l) ≫= g) with (g e ++ (l ≫= g)).
  rewrite fmap_app, IH. done.
Qed.

Lemma bind_ext_in (l : list entry) (g g' : entry -> list entry) :
  (forall x, x ∈ l -> g x = g' x) -> l ≫= g = l ≫= g'.
Proof.
  induction l as [|e l IH]; intros H; [done|].
  change ((e :: l) ≫= g) with (g e ++ (l ≫= g)).
  change ((e :: l) ≫= g') with (g' e ++ (l ≫= g')).
  rewrite H by (by left). rewrite IH; [done|]. intros x Hx. apply H. by right.
Qed.

Lemma filter_fmap_pos n (h : entry -> entry) (l : list entry) :
  (forall e, (h e).1.1 = e.1.1) ->
  filter (fun e : entry => (e.1.1 <= n)%nat) (h <$> l)
  = h <$> filter (fun e : entry => (e.1.1 <= n)%nat) l.
Proof.
  intros Hh. induction l as [|e l IH]; [done|].
  change (h <$> e :: l) with (h e :: (h <$> l)).
  destruct (decide (e.1.1 <= n)%nat) as [Hle|Hgt].
  - rewrite !filter_cons_True by (rewrite ?Hh; done). by rewrite IH.
  - rewrite !filter_cons_False by (rewrite ?Hh; done). done.
Qed.

Lemma star_enum_tail c : forall s pos t cs,
  filter (fun e : entry => (e.1.1 <= pos + length s)%nat) (star_enum c pos (s ++ t) cs)
  = ext t <$> star_enum c pos s cs.
Proof.
  induction s as [|b s IH]; intros pos t cs.
  - simpl. rewrite Nat.add_0_r.
    assert (Hbeyond : forall t' : bytes,
      filter (fun e : entry => (e.1.1 <= pos)%nat) (star_enum c (S pos) t' cs) = []).
    { intros t'. apply filter_all_out. intros e (s1 & _ & Hp & _)%star_enum_inv. lia. }
    destruct t as [|b t]; simpl.
    + by rewrite filter_cons_True by (simpl; lia).
    + destruct (cset_mem c b).
      * rewrite filter_app, Hbeyond. simpl. by rewrite filter_cons_True by (simpl; lia).
      * by rewrite filter_cons_True by (simpl; lia).
  - simpl. destruct (cset_mem c b).
    + rewrite filter_app, fmap_app.
      replace (pos + S (length s))%nat with (S pos + length s)%nat by lia.
      rewrite IH. f_equal. by rewrite filter_cons_True by (simpl; lia).
    + by rewrite filter_cons_True by (simpl; lia).
Qed.

(** The entries that stop inside [s] do not depend on what follows
    [s]. *)
Lemma enum_tail r : forall pos s t cs,
  filter (fun e : entry => (e.1.1 <= pos + length s)%nat) (enum r pos (s ++ t) cs)
  = ext t <$> enum r pos s cs.
Proof.
  induction r as [c0|l|c0|c0|r1 IH1 r2 IH2|g r IH]; intros pos s t cs; simpl.
  - destruct s as [|b s]; simpl.
    + destruct t as [|b t]; [done|]. destruct (cset_mem c0 b); [|done].
      by rewrite filter_cons_False by (simpl; lia).
    + destruct (cset_mem c0 b); [|done]. by rewrite filter_cons_True by (simpl; lia).
  - destruct (lit_rest l s) as [s'|] eqn:Hs.
    + apply lit_rest_spec in Hs as ->.
      assert (Hl : lit_rest l ((l ++ s') ++ t) = Some (s' ++ t)).
      { apply lit_rest_spec. by rewrite app_assoc. }
      rewrite Hl. rewrite filter_cons_True by (simpl; rewrite length_app; lia). done.
    + destruct (lit_rest l (s ++ t)) as [s'|] eqn:Hst; [|done].
      apply lit_rest_spec in Hst.
      destruct (decide (length l <= length s)%nat) as [Hle|Hgt].
      * exfalso. assert (Hpre : s = l ++ drop (length l) s).
        { rewrite <- (take_drop (length l) s) at 1. f_equal.
          apply (f_equal (take (length l))) in Hst.
          rewrite take_app_le in Hst by done. by rewrite take_app_length in Hst. }
        apply lit_rest_spec in Hpre. congruence.
      * by rewrite filter_cons_False by (simpl; lia).
  - apply star_enum_tail.
  - destruct s as [|b s]; simpl.
    + destruct t as [|b t]; [done|]. destruct (cset_mem c0 b); [|done].
      apply filter_all_out. intros e (s1 & _ & Hp & _)%star_enum_inv. lia.
    + destruct (cset_mem c0 b); [|done].
      replace (pos + S (length s))%nat with (S pos + length s)%nat by lia.
      apply star_enum_tail.
  - rewrite filter_bind.
    rewrite (bind_filter_skip (fun e : entry => (e.1.1 <= pos + length s)%nat)).
    2:{ intros x Hx Hout. apply filter_all_out. intros e He%enum_ge. lia. }
    rewrite IH1, bind_fmap_entry, fmap_bind_entry.
    apply bind_ext_in. intros x Hx. apply enum_length in Hx.
    unfold ext at 1 2 3. simpl. rewrite <- Hx. apply IH2.
  - rewrite filter_fmap_pos by done. rewrite IH, <- !list_fmap_compose.
    apply list_fmap_ext. by intros ? [[p rest] ce].
Qed.

End EnumFacts.

Import EnumFacts.

(** A match that ends with [g] is found again, with the same groups,
    whatever follows [g], as long as no match can reach beyond [g]. *)
Lemma re_match_tail r g t t' m :
  re_match r (g ++ t) = Some m -> m_end m = length g ->
  (forall s1 c rest, g ++ t' = s1 ++ rest -> parses r 0 s1 c ->
                     (length s1 <= length g)%nat) ->
  re_match r (g ++ t') =
    Some {| m_string := g ++ t'; m_end := length g; m_groups := m_groups m |}.
Proof.
  intros Hm Hend Hbound. rewrite re_match_enum in Hm |- *.
  destruct (enum r 0 (g ++ t) []) as [|[[p0 rest0] c0] l0] eqn:E; [done|].
  simpl in Hm. inversion Hm; subst m; clear Hm. simpl in Hend |- *. subst p0.
  pose proof (enum_tail r 0 g t []) as T1. rewrite E in T1. simpl in T1.
  rewrite filter_cons_True in T1 by (simpl; lia).
  destruct (enum r 0 g []) as [|e0' l'] eqn:E'; [by inversion T1|].
  change (ext t <$> e0' :: l') with (ext t e0' :: (ext t <$> l')) in T1.
  inversion T1 as [[He0 _]].
  pose proof (enum_tail r 0 g t' []) as T2. rewrite E' in T2. simpl in T2.
  rewrite filter_all_in in T2.
  2:{ intros e (s1 & c & Hs & Hp & _ & Hps)%enum_sound. simpl.
      specialize (Hbound _ _ _ Hs Hps). destruct e as [[p rest] ce]. simpl in *. lia. }
  rewrite T2. change (ext t' <$> e0' :: l') with (ext t' e0' :: (ext t' <$> l')).
  destruct e0' as [[p rest] ce]. unfold ext in He0. simpl in *. by simplify_eq.
Qed.

Lemma span_app_within (g t : bytes) a b :
  (a <= b)%nat -> (b <= length g)%nat -> span (g ++ t) a b = span g a b.
Proof.
  intros Hab Hb. unfold span. rewrite drop_app_le by lia.
  apply take_app_le. rewrite length_drop. lia.
Qed.

(** The whole of a match of the pattern: where it ends and where its
    groups lie. *)
Lemma stack_match_struct line m :
  re_match STACK_PATTERN line = Some m ->
  exists ft idd rest,
    line = group0 m ++ rest /\ m_string m = line /\ m_end m = length (group0 m)
    /\ stack_frame not_newline (group0 m) ft idd
    /\ m_groups m = [(Gid, ((length ft + 4)%nat, (length ft + 4 + length idd)%nat));
                     (G1, (0%nat, length ft))]
    /\ group_of m Gid = Some idd.
Proof.
  intros H. apply re_match_sound in H as (s1 & s2 & c & -> & Hp & ->).
  apply (parses_stack_pattern CAny) in Hp as (ft & idd & Hsf & ->).
  exists ft, idd, s2. unfold group0, group_of. cbn [m_string m_end m_groups].
  rewrite take_app_length. split_and!; try done.
  destruct Hsf as (moff & -> & _).
  destruct (find_group_stack (length ft + 4) (length ft + 4 + length idd) 0 (length ft))
    as [-> _].
  f_equal. unfold span.
  replace (length ft + 4 + length idd - (length ft + 4))%nat with (length idd) by lia.
  rewrite <- !app_assoc. rewrite (app_assoc ft (bs " -> ")).
  rewrite drop_app_length' by (rewrite length_app; reflexivity).
  by rewrite take_app_length.
Qed.

Lemma hex_not_gt_space c : is_upper_hex c = true -> c <> ">"%byte /\ c <> SPACE.
Proof. by destruct c. Qed.

Lemma digit_not_space_byte c : is_digit c = true -> c <> SPACE.
Proof. by destruct c. Qed.

(** One way only to cut a string at its last space. *)
Lemma split_last_space : forall (a b x y : bytes),
  SPACE ∉ x -> SPACE ∉ y -> a ++ SPACE :: x = b ++ SPACE :: y -> a = b /\ x = y.
Proof.
  induction a as [|c a IH]; intros b x y Hx Hy H.
  - destruct b as [|c' b]; simpl in H; [by inversion H|].
    inversion H; subst. destruct Hx. apply elem_of_app. right. by left.
  - destruct b as [|c' b]; simpl in H.
    + inversion H; subst. destruct Hy. apply elem_of_app. right. by left.
    + inversion H; subst. destruct (IH b x y Hx Hy) as [-> ->]; done.
Qed.

Lemma stack_frame_last g0 ft idd :
  stack_frame not_newline g0 ft idd ->
  exists h, last g0 = Some h /\ is_upper_hex h = true.
Proof.
  intros (moff & -> & _ & _ & [Hne Hall]).
  destruct (proj2 (last_is_Some moff) Hne) as [h Hh].
  exists h. split.
  - rewrite !last_app. by rewrite Hh.
  - rewrite Forall_forall in Hall. apply Hall. by apply last_Some_elem_of.
Qed.

Lemma prefix_before_newline (x v rest : bytes) :
  NL ∉ v -> x ++ [NL] = v ++ rest -> exists l, x = v ++ l.
Proof.
  intros Hnl [l [[Hx _]|[Hv Hr]]]%app_eq_app; [by exists l|].
  destruct l as [|c l].
  - exists []. by rewrite app_nil_r in Hv |- *.
  - inversion Hr; subst. destruct Hnl. apply elem_of_app. right. by left.
Qed.

Lemma past_the_padding (pad w v l : bytes) x :
  Forall (fun b => b = SPACE) pad -> last v = Some x -> x <> SPACE ->
  pad ++ w = v ++ l ->
  exists w1, v = pad ++ w1 /\ w1 <> [] /\ exists w2, w = w1 ++ w2.
Proof.
  intros Hpad Hlast Hx [l' [[Hp _]|[Hv Hw]]]%app_eq_app.
  - exfalso. apply Hx. rewrite Forall_forall in Hpad. apply Hpad.
    rewrite Hp. apply elem_of_app. left. by apply last_Some_elem_of.
  - exists l'. split; [done|]. split; [|by exists l].
    intros ->. rewrite app_nil_r in Hv. subst v. apply Hx.
    rewrite Forall_forall in Hpad. apply Hpad. by apply last_Some_elem_of.
Qed.

(** In a rewritten line no frame reaches beyond the frame it was
    rewritten from. *)
Lemma frame_prefix_bound g0 ft idd pad w g' ft' idd' rest' :
  stack_frame not_newline g0 ft idd ->
  stack_frame not_newline g' ft' idd' ->
  Forall (fun b => b = SPACE) pad -> (w = [] \/ pad <> []) -> SPACE ∉ w ->
  g0 ++ pad ++ w ++ [NL] = g' ++ rest' ->
  (length g' <= length g0)%nat.
Proof.
  intros Hg0 Hg' Hpad Hw Hsp Heq.
  destruct (decide (length g' <= length g0)%nat) as [|Hgt]; [done|]. exfalso.
  pose proof (stack_frame_no_newline _ _ _ Hg') as Hnl.
  destruct (stack_frame_last _ _ _ Hg') as (h' & Hlast' & Hh').
  destruct (stack_frame_last _ _ _ Hg0) as (h & Hlast & Hh).
  destruct (hex_not_gt_space _ Hh') as [_ Hh'sp].
  destruct (hex_not_gt_space _ Hh) as [Hhgt _].
  (* g' runs over g0 by v *)
  apply app_eq_app in Heq as [v [[Hgv Hr]|[Hgv Hr]]].
  { apply (f_equal length) in Hgv. rewrite length_app in Hgv. lia. }
  assert (Hv : v <> []).
  { intros ->. rewrite app_nil_r in Hgv. subst. lia. }
  assert (Hnlv : NL ∉ v).
  { intros Hin. apply Hnl. rewrite Hgv. apply elem_of_app. by right. }
  assert (Hlastv : last v = Some h').
  { rewrite Hgv, last_app in Hlast'. destruct (last v) eqn:E; [done|].
    by apply last_None in E. }
  (* v is the padding and the start of the name *)
  rewrite app_assoc in Hr. apply prefix_before_newline in Hr as [l Hpw]; [|done].
  destruct (past_the_padding _ _ _ _ _ Hpad Hlastv Hh'sp Hpw)
    as (w1 & -> & Hw1 & w2 & ->).
  assert (Hpadne : pad <> []).
  { destruct Hw as [Hw|?]; [|done]. by destruct w1. }
  destruct pad as [|c pad0 _] using rev_ind; [done|].
  apply Forall_app in Hpad as [Hpad0 Hc]. inversion Hc; subst c.
  (* the last space of g' sits before the id *)
  destruct Hg' as (moff' & Hg'eq & _ & [_ Hidd'] & [_ Hmoff']).
  assert (Hcut : (ft' ++ bs " ->") ++ SPACE :: (idd' ++ bs "+0x" ++ moff')
                 = (g0 ++ pad0) ++ SPACE :: w1).
  { trans g'.
    - rewrite Hg'eq, <- !app_assoc. reflexivity.
    - rewrite Hgv, <- !app_assoc. reflexivity. }
  apply split_last_space in Hcut as [Hcut _].
  - apply (f_equal last) in Hcut. rewrite !last_app in Hcut. simpl in Hcut.
    rewrite Hlast in Hcut. destruct (last pad0) as [y|] eqn:Ey.
    + apply last_Some_elem_of in Ey. rewrite Forall_forall in Hpad0.
      rewrite (Hpad0 _ Ey) in Hcut. done.
    + by inversion Hcut.
  - rewrite !elem_of_app. intros [Hin|[Hin|Hin]].
    + rewrite Forall_forall in Hidd'. by apply Hidd', digit_not_space_byte in Hin.
    + by repeat (apply elem_of_cons in Hin as [?|Hin]; [done|]); apply elem_of_nil in Hin.
    + rewrite Forall_forall in Hmoff'. by apply Hmoff', hex_not_gt_space in Hin as [_ ?].
  - intros Hin. apply Hsp. apply elem_of_app. by left.
Qed.

(** * Rewritten lines match as before *)

Lemma stack_rematch line m pad w :
  re_match STACK_PATTERN line = Some m ->
  Forall (fun b => b = SPACE) pad -> (w = [] \/ pad <> []) -> SPACE ∉ w ->
  exists m',
    re_match STACK_PATTERN (group0 m ++ pad ++ w ++ [NL]) = Some m'
    /\ group0 m' = group0 m /\ group_of m' Gid = group_of m Gid.
Proof.
  intros Hm Hpad Hw Hsp.
  destruct (stack_match_struct _ _ Hm) as (ft & idd & rest & Hline & Hstr & Hend & Hsf & Hgr & Hgid).
  assert (Hre : re_match STACK_PATTERN (group0 m ++ rest) = Some m) by (by rewrite <- Hline).
  pose proof (re_match_tail STACK_PATTERN (group0 m) rest (pad ++ w ++ [NL]) m Hre Hend) as Ht.
  eexists. split; [apply Ht|].
  - intros s1 c rest' Heq Hp.
    apply (parses_stack_pattern CAny) in Hp as (ft' & idd' & Hsf' & _).
    by eapply (frame_prefix_bound (group0 m) ft idd pad w s1 ft' idd' rest').
  - unfold group0 at 1, group_of at 1. cbn [m_string m_end m_groups].
    rewrite take_app_length. split; [done|].
    rewrite Hgid, Hgr.
    destruct (find_group_stack (length ft + 4) (length ft + 4 + length idd) 0 (length ft))
      as [-> _].
    f_equal.
    assert (Hlen : (length ft + 4 + length idd <= length (group0 m))%nat).
    { destruct Hsf as (moff & -> & _). rewrite !length_app. simpl. lia. }
    rewrite span_app_within by lia.
    unfold group_of in Hgid. rewrite Hgr in Hgid.
    destruct (find_group_stack (length ft + 4) (length ft + 4 + length idd) 0 (length ft))
      as [Hfg _].
    rewrite Hfg in Hgid. rewrite Hstr, Hline in Hgid.
    rewrite span_app_within in Hgid by lia. congruence.
Qed.

Lemma word_no_space name : word name -> SPACE ∉ name.
Proof.
  intros [_ Hall] Hin. rewrite Forall_forall in Hall. by apply Hall in Hin.
Qed.

(** What [add_name] returns for a matched line matches again, with the
    same matched text and the same id. *)
Lemma add_name_rematch (lk : gmap Z bytes) line m width out :
  clean_names lk ->
  re_match STACK_PATTERN line = Some m ->
  (length (group0 m) < width)%nat ->
  add_name line lk width = Ok out ->
  exists m',
    re_match STACK_PATTERN out = Some m'
    /\ group0 m' = group0 m /\ group_of m' Gid = group_of m Gid.
Proof.
  intros Hclean Hm Hwidth Hout.
  pose proof (add_name_fits _ _ _ _ Hout) as Hfit.
  destruct (stack_match_id _ _ Hfit Hm) as (idd & _ & _ & Hi).
  rewrite (add_name_match _ _ _ _ _ Hm Hi) in Hout.
  destruct (lk !! decimal idd) as [name|] eqn:Hname.
  - pose proof (Hclean _ _ Hname) as Hw. rewrite truthy_word in Hout by done.
    simpl in Hout. inversion Hout; subst out. unfold ljust. rewrite <- app_assoc.
    apply (stack_rematch line m); [done| | |].
    + apply Forall_forall. by intros b ?%elem_of_replicate_inv.
    + right. destruct (width - length (group0 m))%nat eqn:E; [lia|done].
    + intros Hin%rstrip_elem. by apply word_no_space in Hin.
  - simpl in Hout. inversion Hout; subst out.
    apply (stack_rematch line m [] []); [done|constructor|by left|by intros ?%elem_of_nil].
Qed.

Lemma add_name_labelled lk width line :
  id_fits line -> add_name line lk width = Ok (labelled lk width line).
Proof.
  intros Hfit. unfold labelled.
  by destruct (add_name_total line lk width Hfit) as [out ->].
Qed.

Lemma frame_id_match line m :
  id_fits line ->
  re_match STACK_PATTERN line = Some m ->
  exists i, int_of (group_of m Gid) = Ok i /\ frame_id line = Some i /\ 0 <= i.
Proof.
  intros Hfit Hm. destruct (stack_match_id _ _ Hfit Hm) as (idd & [_ Hd] & _ & Hi).
  exists (decimal idd). unfold frame_id. rewrite Hm, Hi.
  split_and!; [done|done|]. by apply foldl_decimal_nonneg.
Qed.

(** * [add_name] applied twice *)

(** Without room for padding the name runs into the matched text, and a
    second [add_name] appends it once more. *)
Example add_name_twice_without_padding :
  let lk : gmap Z bytes := {[ 12345 := bs "ABC" ]} in
  add_name sample_bare_line lk 0 = Ok (sample_bare_line ++ bs "ABC" ++ [NL])
  /\ add_name (sample_bare_line ++ bs "ABC" ++ [NL]) lk 0
     = Ok (sample_bare_line ++ bs "ABCABC" ++ [NL]).
Proof. split; reflexivity. Qed.

Lemma add_name_again (lk : gmap Z bytes) line width out :
  clean_names lk ->
  (forall m, re_match STACK_PATTERN line = Some m -> (length (group0 m) < width)%nat) ->
  add_name line lk width = Ok out ->
  add_name out lk width = Ok out /\ frame_id out = frame_id line.
Proof.
  intros Hlk Hwidth Hout. pose proof (add_name_fits _ _ _ _ Hout) as Hfit.
  destruct (re_match STACK_PATTERN line) as [m|] eqn:Hm.
  - destruct (add_name_rematch lk line m width out Hlk Hm (Hwidth m eq_refl) Hout)
      as (m' & Hm' & Hg0 & Hgid).
    destruct (frame_id_match _ _ Hfit Hm) as (i & Hi & Hfid & _).
    assert (Hi' : int_of (group_of m' Gid) = Ok i) by (by rewrite Hgid).
    split.
    + rewrite (add_name_match _ _ _ _ _ Hm' Hi'), Hg0.
      by rewrite (add_name_match _ _ _ _ _ Hm Hi) in Hout.
    + rewrite Hfid. unfold frame_id. by rewrite Hm', Hi'.
  - rewrite add_name_no_match in Hout by done. inversion Hout; subst out.
    split; [by apply add_name_no_match|done].
Qed.

(** X1. With the mapping [lookup_ids] returns and a width beyond the matched
    text (as [process_log] computes it), [add_name] is idempotent: its
    output is a line it leaves as it is, with the same id. *)
Theorem add_name_idempotent data id_list lk line width out :
  lookup_in data id_list = Ok lk ->
  (forall m, re_match STACK_PATTERN line = Some m -> (length (group0 m) < width)%nat) ->
  add_name line lk width = Ok out ->
  add_name out lk width = Ok out /\ frame_id out = frame_id line.
Proof. intros Hlk%lookup_in_clean. by apply add_name_again. Qed.

Lemma add_name_idempotent_witness :
  let lk : gmap Z bytes := {[ 12345 := bs "SomeFunction_" ]} in
  let out := sample_bare_line ++ bs " SomeFunction" ++ [NL] in
  add_name out lk 62 = Ok out /\ frame_id out = frame_id sample_line.
Proof.
  apply (add_name_idempotent (Some sample_symbol_db) [12345]
           {[ 12345 := bs "SomeFunction_" ]} sample_line 62).
  - reflexivity.
  - intros m [= <-]. vm_compute. lia.
  - reflexivity.
Defined.

Lemma map_lines_ok callback : forall lines out,
  map_lines callback lines = Ok out <->
  Forall2 (fun line o => callback line = Ok o) lines out.
Proof.
  induction lines as [|l ls IH]; intros out; simpl.
  - split; [intros [= <-]; constructor|by inversion 1].
  - destruct (callback l) as [o|e] eqn:Hl; simpl.
    + destruct (map_lines callback ls) as [os|e] eqn:Hls; simpl.
      * split.
        -- intros [= <-]. constructor; [done|]. by apply IH.
        -- inversion 1 as [|? o' ? os' Ho Hos]; subst. apply IH in Hos.
           rewrite Hl in Ho. by simplify_eq.
      * split; [done|]. inversion 1 as [|? o' ? os' Ho Hos]; subst.
        by apply IH in Hos.
    + split; [done|]. inversion 1 as [|? o' ? os' Ho Hos]; subst. congruence.
Qed.

(** The first loop of [process_log] sees in the rewritten call stack
    what it saw in the original: the same ids and the same width. *)
Lemma scan_labelled lk width : forall cs ids w0,
  clean_names lk ->
  (forall line m, line ∈ cs -> re_match STACK_PATTERN line = Some m ->
                  (length (group0 m) < width)%nat) ->
  scan_call_stack (map (labelled lk width) cs) ids w0 = scan_call_stack cs ids w0.
Proof.
  induction cs as [|line cs IH]; intros ids w0 Hclean Hw; [done|].
  change (map (labelled lk width) (line :: cs))
    with (labelled lk width line :: map (labelled lk width) cs).
  assert (Hw' : forall line' m, line' ∈ cs -> re_match STACK_PATTERN line' = Some m ->
                  (length (group0 m) < width)%nat).
  { intros line' m Hin. apply Hw. by right. }
  destruct (add_name line lk width) as [out|e] eqn:Hadd.
  2:{ assert (Heq : labelled lk width line = line) by (unfold labelled; by rewrite Hadd).
      rewrite Heq. simpl. destruct (re_match STACK_PATTERN line) as [m|]; [|by apply IH].
      destruct (int_of (group_of m Gid)); simpl; [by apply IH|done]. }
  pose proof (add_name_labelled lk width line (add_name_fits _ _ _ _ Hadd)) as Hout.
  simpl. destruct (re_match STACK_PATTERN line) as [m|] eqn:Hm.
  - assert (Hlt : (length (group0 m) < width)%nat) by (apply (Hw line); [by left|done]).
    destruct (add_name_rematch lk line m width _ Hclean Hm Hlt Hout)
      as (m' & -> & -> & ->).
    destruct (int_of (group_of m Gid)); simpl; [|done]. by apply IH.
  - rewrite add_name_no_match in Hout by done.
    assert (Heq : labelled lk width line = line) by congruence.
    rewrite Heq, Hm. by apply IH.
Qed.

(** * Lines of a file *)

Lemma readlines_full body rest :
  NL ∉ body -> readlines (body ++ NL :: rest) = (body ++ [NL]) :: readlines rest.
Proof.
  induction body as [|c body IH]; intros Hnl; simpl.
  - done.
  - rewrite bool_decide_eq_false_2 by (intros ->; apply Hnl; by left).
    rewrite IH; [done|]. intros Hin. apply Hnl. by right.
Qed.

Lemma readlines_open line : line <> [] -> NL ∉ line -> readlines line = [line].
Proof.
  induction line as [|c line IH]; intros Hne Hnl; [done|]. simpl.
  rewrite bool_decide_eq_false_2 by (intros ->; apply Hnl; by left).
  destruct line as [|c' line]; [done|].
  rewrite IH; [done|done|]. intros Hin. apply Hnl. by right.
Qed.

(** Splitting the concatenation of well-formed lines gives them back. *)
Lemma readlines_concat : forall ls, file_lines ls -> readlines (concat ls) = ls.
Proof.
  induction ls as [|l ls IH]; intros Hls; [done|]. simpl in Hls |- *.
  destruct Hls as [[(body & -> & Hnl)|[[Hne Hnl] ->]] Hrest].
  - rewrite <- app_assoc. simpl. rewrite readlines_full by done. by rewrite IH.
  - simpl. rewrite app_nil_r. by apply readlines_open.
Qed.

Lemma file_lines_readlines data : file_lines (readlines data).
Proof.
  induction data as [|c data IH]; [done|]. simpl.
  case_bool_decide as Hc.
  - simpl. split; [|done]. left. exists []. split; [by subst|]. by intros ?%elem_of_nil.
  - destruct (readlines data) as [|l ls]; simpl in *.
    + split; [|done]. right. split; [|done]. split; [done|].
      intros [?|?%elem_of_nil]%elem_of_cons; done.
    + destruct IH as [[(body & -> & Hnl)|[[Hne Hnl] ->]] Hrest]; (split; [|done]).
      * left. exists (c :: body). split; [done|].
        intros [?|?]%elem_of_cons; done.
      * right. split; [|done]. split; [done|]. intros [?|?]%elem_of_cons; done.
Qed.

(** A blank line put in front of a line keeps the lines well-formed. *)
Lemma file_lines_insert_blank : forall a x b,
  file_lines (a ++ x :: b) -> file_lines (a ++ [NL] :: x :: b).
Proof.
  induction a as [|l a IH]; intros x b H; simpl in *.
  - split; [|done]. left. exists []. split; [done|]. by intros ?%elem_of_nil.
  - destruct H as [[Hl|[_ Habs]] Hrest]; [|by destruct a].
    split; [by left|]. by apply IH.
Qed.

(** Lines replaced by full lines, or kept, stay well-formed. *)
Lemma file_lines_replace : forall ls ls',
  Forall2 (fun l o => o = l \/ full_line o) ls ls' -> file_lines ls -> file_lines ls'.
Proof.
  induction 1 as [|l o ls ls' Ho Hrest IH]; intros H; [done|]. simpl in *.
  destruct H as [Hl Hls]. split; [|by apply IH].
  destruct Ho as [->|Ho]; [|by left].
  destruct Hl as [?|[? ->]]; [by left|]. right. by inversion Hrest.
Qed.

(** * How [read_file] cuts a file *)

Lemma combine_empty_r d : combine d empty_log = d.
Proof. destruct d. unfold combine. simpl. by rewrite !app_nil_r. Qed.

Lemma combine_assoc d1 d2 d3 : combine (combine d1 d2) d3 = combine d1 (combine d2 d3).
Proof. unfold combine. simpl. by rewrite !app_assoc. Qed.

Lemma append_post_combine line d : append_post line d = combine d (append_post line empty_log).
Proof. destruct d. unfold combine, append_post. simpl. by rewrite !app_nil_r. Qed.

Lemma append_stack_combine line d :
  append_stack line d = combine d (append_stack line empty_log).
Proof. destruct d. unfold combine, append_stack. simpl. by rewrite !app_nil_r. Qed.

Lemma append_pre_combine line d : append_pre line d = combine d (append_pre line empty_log).
Proof. destruct d. unfold combine, append_pre. simpl. by rewrite !app_nil_r. Qed.

Lemma read_post_combine : forall ls line d,
  read_post line ls d = combine d (read_post line ls empty_log).
Proof.
  induction ls as [|l ls IH]; intros line d; simpl.
  - apply append_post_combine.
  - rewrite (IH l (append_post line d)), (IH l (append_post line empty_log)).
    by rewrite append_post_combine, combine_assoc.
Qed.

Lemma read_stack_combine : forall ls d,
  read_stack ls d = combine d (read_stack ls empty_log).
Proof.
  induction ls as [|l ls IH]; intros d; simpl.
  - by rewrite combine_empty_r.
  - case_bool_decide; [apply read_post_combine|].
    case_bool_decide.
    + rewrite (read_post_combine ls l (append_post [NL] d)),
        (read_post_combine ls l (append_post [NL] empty_log)).
      by rewrite append_post_combine, combine_assoc.
    + rewrite (IH (append_stack l d)), (IH (append_stack l empty_log)).
      by rewrite append_stack_combine, combine_assoc.
Qed.

Lemma read_pre_combine : forall ls d,
  read_pre ls d = combine d (read_pre ls empty_log).
Proof.
  induction ls as [|l ls IH]; intros d; simpl.
  - by rewrite combine_empty_r.
  - case_bool_decide.
    + rewrite (read_stack_combine ls (append_pre l d)),
        (read_stack_combine ls (append_pre l empty_log)).
      by rewrite append_pre_combine, combine_assoc.
    + rewrite (IH (append_pre l d)), (IH (append_pre l empty_log)).
      by rewrite append_pre_combine, combine_assoc.
Qed.

Lemma read_post_empty ls line :
  read_post line ls empty_log =
  {| pre_call_stack := []; call_stack := []; post_call_stack := line :: ls;
     changed := false |}.
Proof.
  revert line. induction ls as [|l ls IH]; intros line; [done|]. simpl.
  rewrite read_post_combine, IH. done.
Qed.

Lemma read_stack_shape : forall ls,
  let d := read_stack ls empty_log in
  pre_call_stack d = []
  /\ Forall (fun line => line <> [NL] /\ line <> REGISTERS_MARKER) (call_stack d)
  /\ (post_call_stack d = [] \/ exists post', post_call_stack d = [NL] :: post')
  /\ call_stack d ++ post_call_stack d =
       match stack_cut ls with
       | None => ls
       | Some (a, b) => a ++ [NL] :: REGISTERS_MARKER :: b
       end.
Proof.
  induction ls as [|l ls IH]; simpl.
  - split_and!; [done|constructor|by left|done].
  - case_bool_decide as Hnl.
    + subst l. rewrite read_post_empty. simpl.
      split_and!; [done|constructor|right; by eexists|done].
    + case_bool_decide as Hreg.
      * subst l. rewrite read_post_combine, read_post_empty. simpl.
        split_and!; [done|constructor|right; by eexists|done].
      * rewrite read_stack_combine. simpl in IH |- *.
        destruct IH as (Hpre & Hcs & Hpost & Hlines).
        split_and!; [done|by constructor|done|].
        rewrite Hlines. by destruct (stack_cut ls) as [[a b]|].
Qed.

(** The three segments [read_file] makes of the lines [ls]. *)
Lemma read_pre_shape : forall ls,
  let d := read_pre ls empty_log in
  segmented (pre_call_stack d) (call_stack d) (post_call_stack d)
  /\ pre_call_stack d ++ call_stack d ++ post_call_stack d =
       match registers_cut ls with
       | None => ls
       | Some (a, b) => a ++ [NL] :: REGISTERS_MARKER :: b
       end.
Proof.
  induction ls as [|l ls IH]; simpl.
  - split; [|done]. split_and!; [right; split_and!; [by intros ?%elem_of_nil|done|done]
                                |constructor|by left].
  - case_bool_decide as Hm.
    + rewrite read_stack_combine. simpl.
      destruct (read_stack_shape ls) as (Hpre & Hcs & Hpost & Hlines).
      rewrite Hpre, Hlines. split.
      * split_and!; [|done|done]. left. exists []. split; [by subst|].
        by intros ?%elem_of_nil.
      * by destruct (stack_cut ls) as [[a b]|].
    + rewrite read_pre_combine. simpl in IH |- *.
      destruct IH as ((Hseg & Hcs & Hpost) & Hlines). split.
      * split_and!; [|done|done].
        destruct Hseg as [(a & -> & Ha)|(Hno & -> & ->)].
        -- left. exists (l :: a). split; [done|].
           intros [?|?]%elem_of_cons; done.
        -- right. split_and!; [|done|done]. intros [?|?]%elem_of_cons; done.
      * rewrite Hlines. by destruct (registers_cut ls) as [[a b]|].
Qed.

Lemma read_stack_segmented : forall cs post,
  Forall (fun line => line <> [NL] /\ line <> REGISTERS_MARKER) cs ->
  (post = [] \/ exists post', post = [NL] :: post') ->
  read_stack (cs ++ post) empty_log =
  {| pre_call_stack := []; call_stack := cs; post_call_stack := post; changed := false |}.
Proof.
  induction cs as [|l cs IH]; intros post Hcs Hpost; simpl.
  - destruct Hpost as [->|(post' & ->)]; [done|]. simpl. by rewrite read_post_empty.
  - inversion Hcs as [|? ? [Hnl Hreg] Hcs']; subst.
    rewrite !bool_decide_eq_false_2 by done.
    rewrite read_stack_combine, IH by done. done.
Qed.

Lemma read_pre_no_marker : forall a rest,
  CALL_STACK_MARKER ∉ a ->
  read_pre (a ++ rest) empty_log =
  combine {| pre_call_stack := a; call_stack := []; post_call_stack := [];
             changed := false |} (read_pre rest empty_log).
Proof.
  induction a as [|l a IH]; intros rest Ha; simpl.
  - pose proof (read_pre_changed rest empty_log) as Hc.
    destruct (read_pre rest empty_log). simpl in Hc. by subst.
  - rewrite bool_decide_eq_false_2 by (intros ->; apply Ha; by left).
    rewrite read_pre_combine, IH by (intros ?; apply Ha; by right). done.
Qed.

(** Segments of that shape are read back as they are. *)
Lemma read_pre_segmented pre cs post :
  segmented pre cs post ->
  read_pre (pre ++ cs ++ post) empty_log =
  {| pre_call_stack := pre; call_stack := cs; post_call_stack := post; changed := false |}.
Proof.
  intros ([(a & -> & Ha)|(Hno & -> & ->)] & Hcs & Hpost).
  - rewrite <- app_assoc, read_pre_no_marker by done.
    change (read_pre ([CALL_STACK_MARKER] ++ cs ++ post) empty_log)
      with (read_stack (cs ++ post) (append_pre CALL_STACK_MARKER empty_log)).
    rewrite read_stack_combine, read_stack_segmented by done.
    unfold combine. simpl. by rewrite ?app_nil_r.
  - rewrite read_pre_no_marker by done. simpl. unfold combine. simpl.
    by rewrite ?app_nil_r.
Qed.

Lemma serialize_concat d :
  serialize d = concat (pre_call_stack d ++ call_stack d ++ post_call_stack d).
Proof. unfold serialize. by rewrite !concat_app. Qed.

Lemma parse_log_lines data :
  let d := parse_log data in
  segmented (pre_call_stack d) (call_stack d) (post_call_stack d)
  /\ file_lines (pre_call_stack d ++ call_stack d ++ post_call_stack d)
  /\ changed d = false.
Proof.
  unfold parse_log. destruct (read_pre_shape (readlines data)) as [Hseg Hlines].
  split; [done|]. split; [|by rewrite read_pre_changed].
  rewrite Hlines. pose proof (file_lines_readlines data) as Hfl.
  destruct (serialize_read_pre (readlines data) empty_log eq_refl eq_refl) as [_ Hcut].
  destruct (registers_cut (readlines data)) as [[a b]|]; [|done].
  rewrite Hcut in Hfl. by apply file_lines_insert_blank.
Qed.

(** A document read from a file, its call stack replaced by [cs'], is
    read back from what [write_file] writes as it was written, provided
    the new lines are lines and could not end the call stack. *)
Lemma parse_written data cs' :
  let d := parse_log data in
  Forall2 (fun l o => o = l \/ full_line o) (call_stack d) cs' ->
  Forall (fun line => line <> [NL] /\ line <> REGISTERS_MARKER) cs' ->
  parse_log (serialize (with_changed d cs'))
  = {| pre_call_stack := pre_call_stack d; call_stack := cs';
       post_call_stack := post_call_stack d; changed := false |}.
Proof.
  intros d Hrep Hok. destruct (parse_log_lines data) as ((Hseg & Hcs & Hpost) & Hfl & _).
  fold d in Hseg, Hcs, Hpost, Hfl.
  rewrite serialize_concat. unfold with_changed. cbn [pre_call_stack call_stack post_call_stack].
  unfold parse_log. rewrite readlines_concat.
  - apply read_pre_segmented. split_and!; [|done|done].
    destruct Hseg as [?|(Hno & Hnil & ->)]; [by left|]. right.
    rewrite Hnil in Hrep. by inversion Hrep.
  - assert (Hsame : forall ls : list bytes,
              Forall2 (fun l o => o = l \/ full_line o) ls ls).
    { induction ls; constructor; [by left|done]. }
    eapply file_lines_replace; [|exact Hfl].
    apply Forall2_app; [apply Hsame|]. apply Forall2_app; [done|apply Hsame].
Qed.

(** * [process_log] as a whole *)

(** X2. Reading again what was read and written gives the same document,
    and writing it once more the same bytes: one pass through
    [read_file] and [write_file] brings a file to a form that further
    passes keep. *)
Theorem parse_serialize_parse data :
  parse_log (serialize (parse_log data)) = parse_log data
  /\ serialize (parse_log (serialize (parse_log data))) = serialize (parse_log data).
Proof.
  assert (H : parse_log (serialize (parse_log data)) = parse_log data).
  { destruct (parse_log_lines data) as ((_ & Hcs & _) & _ & Hch).
    pose proof (parse_written data (call_stack (parse_log data))) as Hw. simpl in Hw.
    assert (Hser : serialize (with_changed (parse_log data) (call_stack (parse_log data)))
                   = serialize (parse_log data)) by done.
    rewrite Hser in Hw. rewrite Hw; [| |done].
    - destruct (parse_log data). simpl in Hch. by subst.
    - clear. induction (call_stack (parse_log data)); constructor; [by left|done]. }
  split; [done|]. by rewrite H.
Qed.

Lemma map_lines_ext callback callback' lines :
  Forall (fun line => callback line = callback' line) lines ->
  map_lines callback lines = map_lines callback' lines.
Proof. induction 1 as [|l ls Hl _ IH]; [done|]. simpl. by rewrite Hl, IH. Qed.

(** On a call stack that the first loop of [process_log] has gone
    through, [add_name] does not raise. *)
Lemma rewrite_call_stack_labelled lk width d :
  Forall id_fits (call_stack d) ->
  rewrite_call_stack (fun a_line => add_name a_line lk width) d =
  Ok (if bool_decide (map (labelled lk width) (call_stack d) ≠ call_stack d)
      then with_changed d (map (labelled lk width) (call_stack d)) else d).
Proof.
  intros Hfit. rewrite <- rewrite_call_stack_pure. unfold rewrite_call_stack.
  rewrite (map_lines_ext _ (fun line => Ok (labelled lk width line))); [done|].
  eapply Forall_impl; [exact Hfit|]. intros line. apply add_name_labelled.
Qed.

(** [process_log] step by step, on pure data. *)
Lemma process_log_eq self log w :
  process_log self log w =
  match files w !! log with
  | None => (Raise FileNotFoundError, w)
  | Some data =>
      let d := parse_log data in
      match scan_call_stack (call_stack d) ∅ 0%nat with
      | Raise e => (Raise e, w)
      | Ok (ids, width) =>
          if bool_decide (ids = ∅) then (Ok (), w)
          else
            match lookup_in (files w !! database_path self) (sorted ids) with
            | Raise e => (Raise e, w)
            | Ok lk =>
                if bool_decide (lk = ∅) then (Ok (), w)
                else
                  let cs' := map (labelled lk width) (call_stack d) in
                  if bool_decide (cs' ≠ call_stack d) then
                    (Ok (),
                     {| files := <[log := serialize (with_changed d cs')]>
                                   (delete_callback self log (files w));
                        events := events w
                                    ++ [Deleted log;
                                        Written log (serialize (with_changed d cs'))] |})
                  else (Ok (), w)
            end
      end
  end.
Proof.
  unfold process_log, mbind, M_bind, mret, M_ret, lift.
  rewrite CrashLog_init_parse. destruct (files w !! log) as [data|]; [|done].
  cbn zeta. destruct (scan_call_stack _ _ _) as [[ids width]|e] eqn:Hscan; [|done].
  case_bool_decide; [done|].
  unfold lookup_ids. destruct (lookup_in _ _) as [lk|e]; [|done].
  case_bool_decide; [done|].
  rewrite rewrite_call_stack_labelled by (by eapply scan_call_stack_fits).
  case_bool_decide.
  - unfold call_delete, write_file, write_wb. simpl. by rewrite <- app_assoc.
  - by rewrite (proj2 (proj2 (parse_log_lines data))).
Qed.

Lemma stack_frame_head g0 ft idd :
  stack_frame not_newline g0 ft idd -> exists tl, g0 = TAB :: tl.
Proof.
  intros (moff & -> & (sp & num & addr & run & off & -> & _) & _). by eexists.
Qed.

(** The line [add_name] makes of a matched line: the matched text, more
    bytes, one newline, and no newline before it. *)
Lemma labelled_match lk width line m :
  clean_names lk -> id_fits line -> re_match STACK_PATTERN line = Some m ->
  exists body,
    labelled lk width line = (group0 m ++ body) ++ [NL] /\ NL ∉ group0 m ++ body.
Proof.
  intros Hclean Hfit Hm. pose proof (add_name_labelled lk width line Hfit) as Hout.
  destruct (stack_match_struct _ _ Hm) as (ft & idd & rest & _ & _ & _ & Hsf & _).
  pose proof (stack_frame_no_newline _ _ _ Hsf) as Hnl.
  destruct (stack_match_id _ _ Hfit Hm) as (idd' & _ & _ & Hi).
  rewrite (add_name_match _ _ _ _ _ Hm Hi) in Hout.
  destruct (lk !! decimal idd') as [name|] eqn:Hname.
  - pose proof (Hclean _ _ Hname) as Hw. rewrite truthy_word in Hout by done.
    simpl in Hout. inversion Hout as [Heq]. unfold ljust.
    exists (replicate (width - length (group0 m)) SPACE ++ rstrip (bs "_*") name).
    split; [by rewrite <- !app_assoc|].
    rewrite !elem_of_app. intros [?|[Hsp|Hn]]; [done| |].
    + by apply elem_of_replicate_inv in Hsp.
    + apply rstrip_elem in Hn. destruct Hw as [_ Hw]. rewrite Forall_forall in Hw.
      specialize (Hw _ Hn). by rewrite space_newline in Hw.
  - simpl in Hout. inversion Hout as [Heq]. exists []. by rewrite app_nil_r.
Qed.

Lemma labelled_no_match lk width line :
  re_match STACK_PATTERN line = None -> labelled lk width line = line.
Proof. intros Hm. unfold labelled. by rewrite add_name_no_match. Qed.

Lemma labelled_raise lk width line e :
  add_name line lk width = Raise e -> labelled lk width line = line.
Proof. intros H. unfold labelled. by rewrite H. Qed.

Lemma labelled_line_ok lk width line :
  clean_names lk ->
  (labelled lk width line = line \/ full_line (labelled lk width line))
  /\ (line <> [NL] /\ line <> REGISTERS_MARKER ->
      labelled lk width line <> [NL] /\ labelled lk width line <> REGISTERS_MARKER).
Proof.
  intros Hclean. destruct (add_name line lk width) as [out|e] eqn:Hadd.
  2:{ rewrite (labelled_raise _ _ _ _ Hadd). split; [by left|done]. }
  apply add_name_fits in Hadd as Hfit.
  destruct (re_match STACK_PATTERN line) as [m|] eqn:Hm.
  - destruct (labelled_match lk width line m Hclean Hfit Hm) as (body & Heq & Hnl).
    destruct (stack_match_struct _ _ Hm) as (ft & idd & rest & _ & _ & _ & Hsf & _).
    destruct (stack_frame_head _ _ _ Hsf) as (tl & Htl).
    split; [right; by exists (group0 m ++ body)|].
    intros _. rewrite Heq, Htl. by split.
  - rewrite labelled_no_match by done. split; [by left|done].
Qed.

Lemma labelled_lines_replace lk width cs :
  clean_names lk ->
  Forall2 (fun l o => o = l \/ full_line o) cs (map (labelled lk width) cs).
Proof.
  intros Hclean. induction cs as [|l ls IH]; constructor; [|done].
  by apply labelled_line_ok.
Qed.

Lemma labelled_lines_ok lk width cs :
  clean_names lk ->
  Forall (fun line => line <> [NL] /\ line <> REGISTERS_MARKER) cs ->
  Forall (fun line => line <> [NL] /\ line <> REGISTERS_MARKER) (map (labelled lk width) cs).
Proof.
  intros Hclean. induction 1 as [|l ls Hl Hls IH]; constructor; [|done].
  by apply labelled_line_ok.
Qed.

Lemma labelled_again lk width line :
  clean_names lk ->
  (forall m, re_match STACK_PATTERN line = Some m -> (length (group0 m) < width)%nat) ->
  labelled lk width (labelled lk width line) = labelled lk width line.
Proof.
  intros Hclean Hw. destruct (add_name line lk width) as [out|e] eqn:Hadd.
  2:{ by rewrite !(labelled_raise _ _ _ _ Hadd). }
  pose proof (add_name_labelled lk width line (add_name_fits _ _ _ _ Hadd)) as Hout.
  destruct (add_name_again lk line width _ Hclean Hw Hout) as [Hagain _].
  unfold labelled at 1. by rewrite Hagain.
Qed.

Lemma scan_width_bound cs ids width line m :
  scan_call_stack cs ∅ 0%nat = Ok (ids, width) ->
  line ∈ cs -> re_match STACK_PATTERN line = Some m ->
  (length (group0 m) < width)%nat.
Proof.
  intros Hscan Hin Hm.
  destruct (scan_call_stack_width _ _ _ _ _ Hscan) as (_ & Hall & _).
  specialize (Hall _ _ Hin Hm). lia.
Qed.

(** X3. Running [process_log] again on a log it has processed changes
    nothing, as long as the database is the same: no file is touched,
    the deletion callback is not called. *)
Theorem process_log_idempotent self log w w1 :
  process_log self log w = (Ok (), w1) ->
  files w1 !! database_path self = files w !! database_path self ->
  process_log self log w1 = (Ok (), w1).
Proof.
  intros Hfirst Hdb. pose proof Hfirst as H. rewrite process_log_eq in H.
  destruct (files w !! log) as [data|] eqn:Hlog; [|done]. cbn zeta in H.
  destruct (scan_call_stack (call_stack (parse_log data)) ∅ 0%nat)
    as [[ids width]|e] eqn:Hscan; [|done].
  case_bool_decide as Hids; [by simplify_eq|].
  destruct (lookup_in (files w !! database_path self) (sorted ids)) as [lk|e] eqn:Hlk;
    [|done].
  case_bool_decide as Hne; [by simplify_eq|].
  case_bool_decide as Hch; [|by simplify_eq].
  pose proof (lookup_in_clean _ _ _ Hlk) as Hclean.
  destruct (parse_log_lines data) as ((_ & Hcs & _) & _ & _).
  set (d := parse_log data) in *. set (cs' := map (labelled lk width) (call_stack d)) in *.
  assert (Hparse : parse_log (serialize (with_changed d cs'))
                   = {| pre_call_stack := pre_call_stack d; call_stack := cs';
                        post_call_stack := post_call_stack d; changed := false |}).
  { apply parse_written; [by apply labelled_lines_replace|by apply labelled_lines_ok]. }
  assert (Hscan' : scan_call_stack cs' ∅ 0%nat = Ok (ids, width)).
  { unfold cs'. rewrite scan_labelled; [done|done|].
    intros line m. by apply scan_width_bound with (ids := ids). }
  assert (Hfix : map (labelled lk width) cs' = cs').
  { unfold cs'. rewrite map_map. apply map_ext_in. intros line Hin.
    apply labelled_again; [done|]. intros m Hm.
    apply (scan_width_bound (call_stack d) ids width line m); [done| |done].
    by apply list_elem_of_In. }
  inversion H as [Hw1]. rewrite Hw1. rewrite <- Hw1 at 1. clear H.
  rewrite process_log_eq. subst w1. simpl in Hdb |- *.
  rewrite lookup_insert_eq. cbn zeta. rewrite Hparse. cbn [call_stack].
  rewrite Hscan'. rewrite bool_decide_eq_false_2 by done.
  rewrite Hdb, Hlk. rewrite bool_decide_eq_false_2 by done.
  rewrite Hfix. by rewrite bool_decide_eq_false_2 by (by intros ?).
Qed.

Lemma process_log_idempotent_witness :
  let w := sample_world sample_frame_log (Some sample_symbol_db) in
  let w1 := snd (process_log sample_processor "log" w) in
  events w1 <> events w /\ process_log sample_processor "log" w1 = (Ok (), w1).
Proof.
  intros w w1. split; [by vm_compute|].
  apply (process_log_idempotent sample_processor "log" w w1); reflexivity.
Defined.

(** * The scanner on any database *)

Lemma find_from_forward i : forall rest line,
  unread (snd (find_from i line rest)) `suffix_of`
    unread {| f := rest; nextLine := line |}.
Proof.
  induction rest as [|line' rest IH]; intros line; rewrite find_from_eq; cbn zeta;
    (destruct line as [|c l]; [done|]);
    destruct (parse_entry (c :: l)) as [[pi n]|]; try done;
    destruct (pi =? i); try done; destruct (pi >? i); try done.
  - apply suffix_nil.
  - etrans; [apply IH|]. unfold unread. simpl.
    destruct line' as [|c' l']; [apply suffix_nil|]. by apply suffix_cons_r.
Qed.

(** X4. Whatever the database holds, a probe leaves the cursor where it was
    or further down: the unread lines after it are a suffix of the
    unread lines before. *)
Theorem find_moves_forward i sc :
  unread (snd (find i sc)) `suffix_of` unread sc.
Proof. destruct sc as [rest line]. apply find_from_forward. Qed.

Lemma parse_entry_raise line e : parse_entry line = Raise e -> e = ValueError.
Proof.
  unfold parse_entry. destruct (split line) as [|a [|b [|]]]; try by intros [= <-].
  unfold int_of_bytes.
  repeat (case_match; simpl; try by intros [= <-]); done.
Qed.

Lemma find_from_raise i : forall rest line e sc',
  find_from i line rest = (Raise e, sc') ->
  e = ValueError /\ nextLine sc' <> [] /\ parse_entry (nextLine sc') = Raise ValueError.
Proof.
  induction rest as [|line' rest IH]; intros line e sc'; rewrite find_from_eq; cbn zeta;
    (destruct line as [|c l]; [done|]);
    destruct (parse_entry (c :: l)) as [[pi n]|e'] eqn:Hp;
    try (destruct (pi =? i); [done|]; destruct (pi >? i); [done|]); try done;
    try apply IH;
    intros [= <- <-]; simpl; apply parse_entry_raise in Hp as Heq; by subst.
Qed.

Lemma find_raises_for_good_core i sc e sc' :
  find i sc = (Raise e, sc') -> e = ValueError.
Proof. by intros (-> & _)%find_from_raise. Qed.

(** X5. A probe raises only [ValueError], on a line that does not parse;
    the cursor stays on that line, so every later probe raises too. *)
Theorem find_raises_for_good i sc e sc' :
  find i sc = (Raise e, sc') ->
  e = ValueError /\ forall j, find j sc' = (Raise ValueError, sc').
Proof.
  intros H. apply find_from_raise in H as (-> & Hne & Hp). split; [done|].
  intros j. unfold find. rewrite find_from_eq. cbn zeta.
  destruct sc' as [rest line]. simpl in *. destruct line; [done|]. by rewrite Hp.
Qed.

Lemma find_raises_for_good_witness :
  let sc := IdScanner_enter (Some (bs "id name" ++ [NL] ++ bs "oops" ++ [NL])) in
  ValueError = ValueError
  /\ forall j, find j (snd (find 3 sc)) = (Raise ValueError, snd (find 3 sc)).
Proof.
  intros sc.
  exact (find_raises_for_good 3 sc ValueError (snd (find 3 sc)) eq_refl).
Defined.

Lemma find_from_found_in i : forall rest line name sc',
  find_from i line rest = (Ok (Some name), sc') ->
  exists l, l ∈ unread {| f := rest; nextLine := line |}
            /\ parse_entry l = Ok (i, name).
Proof.
  induction rest as [|line' rest IH]; intros line name sc'; rewrite find_from_eq; cbn zeta;
    (destruct line as [|c l]; [done|]);
    destruct (parse_entry (c :: l)) as [[pi n]|] eqn:Hp; try done;
    (destruct (Z.eqb_spec pi i) as [->|Hne];
       [intros [= <- _]; exists (c :: l); split; [by left|done]|]);
    destruct (pi >? i); try done.
  intros (l0 & Hin & Hl0)%IH. exists l0. split; [|done].
  unfold unread in Hin |- *. simpl in *. destruct line'; [by apply elem_of_nil in Hin|].
  by right.
Qed.

Lemma lookup_loop_sound : forall ids sc lk0 lk sc',
  lookup_loop ids sc lk0 = (Ok lk, sc') ->
  forall i name, lk !! i = Some name ->
    lk0 !! i = Some name
    \/ (i ∈ ids /\ exists l, l ∈ unread sc /\ parse_entry l = Ok (i, name)).
Proof.
  induction ids as [|j ids IH]; intros sc lk0 lk sc' H i name Hi; simpl in H.
  - left. by simplify_eq.
  - destruct (find j sc) as [[r|e] sc1] eqn:Hf; [|done].
    pose proof (find_from_forward j (f sc) (nextLine sc)) as Hfw.
    fold (find j sc) in Hfw. rewrite Hf in Hfw. simpl in Hfw.
    assert (Hsc : unread {| f := f sc; nextLine := nextLine sc |} = unread sc) by done.
    rewrite Hsc in Hfw. clear Hsc.
    destruct (IH _ _ _ _ H i name Hi) as [H0|(Hin & l & Hl & Hp)].
    + destruct r as [[|c n]|]; simpl in H0; try by left.
      destruct (decide (j = i)) as [->|Hne].
      * rewrite lookup_insert_eq in H0. inversion H0; subst name.
        right. split; [by left|]. destruct sc as [rest line].
        by apply find_from_found_in in Hf.
      * rewrite lookup_insert_ne in H0 by done. by left.
    + right. split; [by right|]. exists l. split; [|done].
      destruct Hfw as [k ->]. apply elem_of_app. by right.
Qed.

(** X6. On any database, sorted or not, [lookup_ids] invents nothing: every
    entry of the mapping is a queried id with the name some database
    line after the header gives it. *)
Theorem lookup_ids_sound data id_list lk i name :
  lookup_in data id_list = Ok lk -> lk !! i = Some name ->
  i ∈ id_list
  /\ exists content line,
       data = Some content /\ line ∈ tail (readlines content)
       /\ parse_entry line = Ok (i, name).
Proof.
  destruct data as [content|]; unfold lookup_in; [|by intros [= <-]].
  destruct (lookup_loop id_list (IdScanner_enter (Some content)) ∅) as [r sc'] eqn:Hl.
  simpl. intros -> Hi.
  destruct (lookup_loop_sound _ _ _ _ _ Hl i name Hi) as [H0|(Hin & l & Hl' & Hp)];
    [by rewrite lookup_empty in H0|].
  split; [done|]. exists content, l. split_and!; [done| |done].
  rewrite IdScanner_enter_tail in Hl'. unfold unread, scanner_of in Hl'.
  destruct (tail (readlines content)) as [|l0 ls]; simpl in Hl'; [by apply elem_of_nil in Hl'|].
  by destruct l0; [apply elem_of_nil in Hl'|].
Qed.

Lemma lookup_ids_sound_witness :
  10 ∈ [10; 20]
  /\ exists content line,
       Some sample_db = Some content /\ line ∈ tail (readlines content)
       /\ parse_entry line = Ok (10, bs "b").
Proof.
  apply (lookup_ids_sound (Some sample_db) [10; 20]
           {[ 10 := bs "b"; 20 := bs "c" ]} 10 (bs "b")); reflexivity.
Defined.

(** An entry below its predecessor is out of reach: the scan has passed
    it by the time its id is probed. *)
Example unsorted_entry_is_missed :
  lookup_in (Some (bs "id name" ++ [NL] ++ bs "10 b" ++ [NL] ++ bs "5 a" ++ [NL])) [5; 10]
  = Ok {[ 10 := bs "b" ]}.
Proof. reflexivity. Qed.

Lemma lookup_loop_eof : forall ids lk0,
  lookup_loop ids {| f := []; nextLine := [] |} lk0
  = (Ok lk0, {| f := []; nextLine := [] |}).
Proof. induction ids as [|i ids IH]; intros lk0; [done|]. simpl. apply IH. Qed.

(** X7. A database that is missing, or has no line after its header, gives
    the empty mapping for every list of ids, and so does every
    database, even a corrupt one, for the empty list. *)
Theorem lookup_ids_nothing_to_find data id_list :
  data = None \/ (exists content, data = Some content /\ tail (readlines content) = [])
  \/ id_list = [] ->
  lookup_in data id_list = Ok ∅.
Proof.
  intros [->|[(content & -> & Htail)| ->]]; [done| |by destruct data].
  unfold lookup_in. rewrite IdScanner_enter_tail, Htail. simpl.
  by rewrite lookup_loop_eof.
Qed.

Lemma lookup_ids_nothing_to_find_witness :
  lookup_in (Some (bs "id name" ++ [NL])) [1; 2; 3] = Ok ∅
  /\ lookup_in (Some (bs "id name" ++ [NL] ++ bs "oops" ++ [NL])) [] = Ok ∅.
Proof.
  split.
  - apply lookup_ids_nothing_to_find. right. left. by eexists.
  - apply lookup_ids_nothing_to_find. by right; right.
Defined.

(** * The first loop of [process_log] *)

Lemma scan_call_stack_ids : forall cs ids0 w0 ids width,
  scan_call_stack cs ids0 w0 = Ok (ids, width) ->
  forall i, i ∈ ids <-> i ∈ ids0 \/ exists line, line ∈ cs /\ frame_id line = Some i.
Proof.
  induction cs as [|line cs IH]; intros ids0 w0 ids width H i; simpl in H.
  - inversion H; subst. split; [by left|]. intros [?|(l & ?%elem_of_nil & _)]; done.
  - unfold frame_id in *. destruct (re_match STACK_PATTERN line) as [m|] eqn:Hm.
    + destruct (int_of (group_of m Gid)) as [j|e] eqn:Hi; [|done]. simpl in H.
      rewrite (IH _ _ _ _ H i). rewrite elem_of_union, elem_of_singleton. split.
      * intros [[->|?]|(l & Hin & Hl)]; [right|by left|right].
        -- exists line. split; [by left|]. by rewrite Hm, Hi.
        -- exists l. split; [by right|done].
      * intros [?|(l & [->|Hin]%elem_of_cons & Hl)]; [by left; right| |].
        -- rewrite Hm, Hi in Hl. left. left. by inversion Hl.
        -- right. by exists l.
    + rewrite (IH _ _ _ _ H i). split.
      * intros [?|(l & Hin & Hl)]; [by left|]. right. exists l. split; [by right|done].
      * intros [?|(l & [->|Hin]%elem_of_cons & Hl)]; [by left| |].
        -- by rewrite Hm in Hl.
        -- right. by exists l.
Qed.

(** X8. The first loop of [process_log] returns when the id of every
    matching call-stack line is within the limit of [int], and raises
    [ValueError] when one is not.  When it returns it has collected
    exactly the ids of the matching call-stack lines, none of them
    negative, and [sorted] hands them to [lookup_ids] strictly
    ascending, each once. *)
Theorem collected_ids cs :
  match scan_call_stack cs ∅ 0%nat with
  | Ok (ids, width) =>
      Forall id_fits cs
      /\ (forall i, i ∈ ids <-> exists line, line ∈ cs /\ frame_id line = Some i)
      /\ (forall i, i ∈ ids -> 0 <= i)
      /\ StronglySorted Z.lt (sorted ids)
      /\ (forall i, i ∈ sorted ids <-> i ∈ ids)
  | Raise e => e = ValueError /\ ~ Forall id_fits cs
  end.
Proof.
  destruct (scan_call_stack cs ∅ 0%nat) as [[ids width]|e] eqn:Hscan;
    [|by eapply scan_call_stack_raise].
  pose proof (scan_call_stack_fits _ _ _ _ Hscan) as Hfit. split; [done|].
  assert (Hids : forall i, i ∈ ids <-> exists line, line ∈ cs /\ frame_id line = Some i).
  { intros i. rewrite (scan_call_stack_ids _ _ _ _ _ Hscan i). split; [|by right].
    intros [?%elem_of_empty|?]; done. }
  split_and!; [done| |apply sorted_strictly_ascending|].
  - intros i (line & Hin & Hf)%Hids. unfold frame_id in Hf.
    destruct (re_match STACK_PATTERN line) as [m|] eqn:Hm; [|done].
    rewrite Forall_forall in Hfit.
    destruct (frame_id_match _ _ (Hfit _ Hin) Hm) as (j & Hj & _ & Hpos).
    rewrite Hj in Hf. by inversion Hf; subst.
  - intros i. unfold sorted. rewrite merge_sort_Permutation. apply elem_of_elements.
Qed.

(** * What [process_log] keeps and writes *)

(** X10. When [process_log] writes, the file is written from the preamble
    and the trailer as they were read and from a call stack of as many
    lines as before, each of them the line it was or, for a matching
    line, a line that starts with the matched text.  The callback is
    called on the log and the log alone is written. *)
Theorem process_log_keeps_the_rest self log w w1 data :
  files w !! log = Some data ->
  process_log self log w = (Ok (), w1) ->
  w1 = w
  \/ exists cs',
       let d := parse_log data in
       Forall2 (fun line out =>
                  out = line
                  \/ exists m more, re_match STACK_PATTERN line = Some m
                                    /\ out = group0 m ++ more)
               (call_stack d) cs'
       /\ w1 = {| files :=
                    <[log := concat (pre_call_stack d) ++ concat cs'
                               ++ concat (post_call_stack d)]>
                      (delete_callback self log (files w));
                  events :=
                    events w ++
                    [Deleted log;
                     Written log (concat (pre_call_stack d) ++ concat cs'
                                    ++ concat (post_call_stack d))] |}.
Proof.
  intros Hlog H. rewrite process_log_eq, Hlog in H. cbn zeta in H.
  destruct (scan_call_stack _ _ _) as [[ids width]|e] eqn:Hscan; [|done].
  case_bool_decide; [left; by simplify_eq|].
  destruct (lookup_in _ _) as [lk|e] eqn:Hlk; [|done].
  case_bool_decide; [left; by simplify_eq|].
  case_bool_decide; [|left; by simplify_eq].
  right. exists (map (labelled lk width) (call_stack (parse_log data))). split.
  - pose proof (lookup_in_clean _ _ _ Hlk) as Hclean.
    pose proof (scan_call_stack_fits _ _ _ _ Hscan) as Hfit.
    clear -Hclean Hfit. revert Hfit. generalize (call_stack (parse_log data)).
    intros cs Hfit. induction Hfit as [|line ls Hl _ IH]; constructor; [|done].
    destruct (re_match STACK_PATTERN line) as [m|] eqn:Hm.
    + right. destruct (labelled_match lk width line m Hclean Hl Hm) as (body & -> & _).
      exists m, (body ++ [NL]). split; [done|]. by rewrite <- app_assoc.
    + left. by apply labelled_no_match.
  - by simplify_eq.
Qed.

Lemma process_log_keeps_the_rest_witness :
  let w := sample_world sample_frame_log (Some sample_symbol_db) in
  let w1 := snd (process_log sample_processor "log" w) in
  w1 = w
  \/ exists cs',
       Forall2 (fun line out =>
                  out = line
                  \/ exists m more, re_match STACK_PATTERN line = Some m
                                    /\ out = group0 m ++ more)
               [sample_line] cs'
       /\ w1 = {| files :=
                    <["log" := concat [bs "crash" ++ [NL]; CALL_STACK_MARKER] ++ concat cs'
                                 ++ concat [[NL]; bs "rax" ++ [NL]]]>
                      (delete "log" (files w));
                  events :=
                    events w ++
                    [Deleted "log";
                     Written "log" (concat [bs "crash" ++ [NL]; CALL_STACK_MARKER]
                                      ++ concat cs'
                                      ++ concat [[NL]; bs "rax" ++ [NL]])] |}.
Proof.
  intros w w1.
  exact (process_log_keeps_the_rest sample_processor "log" w w1 sample_frame_log
           eq_refl eq_refl).
Defined.

(** * The segments of a file *)

(** X11. [read_file] on an existing file returns a document whose preamble
    ends with the first "PROBABLE CALL STACK:" line, whose call stack
    has no blank and no "REGISTERS:" line, and whose trailer, if any,
    starts with a blank line; a file without the marker line is all
    preamble.  On a missing file it raises [FileNotFoundError]. *)
Theorem read_file_segments p w :
  match files w !! p with
  | Some data =>
      exists d,
        CrashLog_init p w = (Ok d, w)
        /\ segmented (pre_call_stack d) (call_stack d) (post_call_stack d)
        /\ (CALL_STACK_MARKER ∉ readlines data ->
            pre_call_stack d = readlines data
            /\ call_stack d = [] /\ post_call_stack d = [])
  | None => CrashLog_init p w = (Raise FileNotFoundError, w)
  end.
Proof.
  rewrite CrashLog_init_parse. destruct (files w !! p) as [data|]; [|done].
  exists (parse_log data). split; [done|].
  split; [apply parse_log_lines|].
  intros Hno. unfold parse_log.
  pose proof (read_pre_no_marker (readlines data) [] Hno) as Hr.
  rewrite app_nil_r in Hr. rewrite Hr. simpl. by rewrite app_nil_r.
Qed.

(** * [process_log] over a sorted database *)

(** For the lines of a call stack, what [add_name] returns under the
    mapping of [lookup_ids] is what the entries of the database say. *)
Lemma labelled_label_line E L lk ids width line :
  entries_of L E ->
  (forall j, lk !! j = if bool_decide (j ∈ sorted ids) then db_name E j else None) ->
  (forall i, frame_id line = Some i -> i ∈ ids) ->
  id_fits line ->
  labelled lk width line = label_line E width line.
Proof.
  intros HE Hlk Hin Hfit. unfold label_line.
  destruct (re_match STACK_PATTERN line) as [m|] eqn:Hm; [|by apply labelled_no_match].
  destruct (frame_id_match _ _ Hfit Hm) as (i & Hi & Hfid & _).
  pose proof (add_name_labelled lk width line Hfit) as Hout.
  rewrite (add_name_match _ _ _ _ _ Hm Hi) in Hout. injection Hout as <-.
  rewrite Hfid. simpl. rewrite Hlk, bool_decide_eq_true_2.
  2:{ unfold sorted. rewrite merge_sort_Permutation. apply elem_of_elements. by apply Hin. }
  destruct (db_name E i) as [name|] eqn:Hn; [|done].
  by rewrite (truthy_word name) by (by eapply entries_words).
Qed.

(** X12. Over a database whose lines after the header parse to entries
    with strictly ascending ids, and for a log on whose call stack the
    first loop returns (the ids [ids], the width [width]),
    [process_log] is a function of the entries: when the database
    knows none of the ids, nothing happens, also to the lines that
    carry text after the match, which [add_name] would drop; when it
    knows one of them, every call-stack line is replaced by its
    labelled form, and the log is deleted and written exactly when that
    changes a line. *)
Theorem process_log_labels self log w data db header L E ids width :
  files w !! log = Some data ->
  files w !! database_path self = Some db ->
  readlines db = header :: L ->
  entries_of L E ->
  StronglySorted Z.lt (E.*1) ->
  scan_call_stack (call_stack (parse_log data)) ∅ 0%nat = Ok (ids, width) ->
  let d := parse_log data in
  let cs' := map (label_line E width) (call_stack d) in
  ((forall i, i ∈ ids -> db_name E i = None) -> process_log self log w = (Ok (), w))
  /\ ((exists i, i ∈ ids /\ is_Some (db_name E i)) ->
      process_log self log w =
        if bool_decide (cs' ≠ call_stack d) then
          (Ok (),
           {| files := <[log := serialize (with_changed d cs')]>
                         (delete_callback self log (files w));
              events := events w
                          ++ [Deleted log; Written log (serialize (with_changed d cs'))] |})
        else (Ok (), w)).
Proof.
  intros Hlog Hdb Hlines HE Hs Hscan. cbn zeta.
  pose proof (scan_call_stack_fits _ _ _ _ Hscan) as Hfit.
  destruct (lookup_loop_spec (sorted ids) L E ∅ HE Hs (sorted_strictly_ascending ids))
    as (lk & L' & Hloop & _ & Hlk0).
  assert (Hlk : forall j,
             lk !! j = if bool_decide (j ∈ sorted ids) then db_name E j else None).
  { intros j. rewrite Hlk0, lookup_empty. case_bool_decide; [|done].
    by destruct (db_name E j). }
  assert (Hin : lookup_in (Some db) (sorted ids) = Ok lk).
  { unfold lookup_in. rewrite IdScanner_enter_tail, Hlines.
    change (tail (header :: L)) with L. by rewrite Hloop. }
  assert (Hsorted : forall j, j ∈ sorted ids <-> j ∈ ids).
  { intros j. unfold sorted. rewrite merge_sort_Permutation. apply elem_of_elements. }
  rewrite process_log_eq, Hlog, Hdb. cbn zeta. rewrite Hscan, Hin.
  split.
  - intros Hnone. case_bool_decide; [done|].
    rewrite bool_decide_eq_true_2; [done|].
    apply map_eq. intros j. rewrite Hlk, lookup_empty.
    case_bool_decide as Hj; [|done]. apply Hnone. by apply Hsorted.
  - intros (i & Hi & [name Hname]).
    rewrite (bool_decide_eq_false_2 (ids = ∅)).
    2:{ intros Heq. rewrite Heq in Hi. by apply elem_of_empty in Hi. }
    rewrite (bool_decide_eq_false_2 (lk = ∅)).
    2:{ intros ->. specialize (Hlk i). rewrite lookup_empty, Hname in Hlk.
        rewrite bool_decide_eq_true_2 in Hlk by (by apply Hsorted). done. }
    assert (Hmap : map (labelled lk width) (call_stack (parse_log data))
                   = map (label_line E width) (call_stack (parse_log data))).
    { apply map_ext_in. intros line Hline. apply list_elem_of_In in Hline.
      eapply labelled_label_line; [done..| |].
      - intros j Hj. rewrite (scan_call_stack_ids _ _ _ _ _ Hscan j). right.
        by exists line.
      - rewrite Forall_forall in Hfit. by apply Hfit. }
    by rewrite Hmap.
Qed.

Lemma process_log_labels_witness :
  let d := parse_log sample_two_frames_log in
  let E := [(12345, bs "SomeFunction_")] in
  let cs' := map (label_line E 62) (call_stack d) in
  let w := sample_world sample_two_frames_log (Some sample_symbol_db) in
  ((forall i, i ∈ ({[ 5; 12345 ]} : gset Z) -> db_name E i = None) ->
   process_log sample_processor "log" w = (Ok (), w))
  /\ ((exists i, i ∈ ({[ 5; 12345 ]} : gset Z) /\ is_Some (db_name E i)) ->
      process_log sample_processor "log" w =
        if bool_decide (cs' ≠ call_stack d) then
          (Ok (),
           {| files := <["log" := serialize (with_changed d cs')]>
                         (delete_callback sample_processor "log" (files w));
              events := events w
                          ++ [Deleted "log";
                              Written "log" (serialize (with_changed d cs'))] |})
        else (Ok (), w)).
Proof.
  apply (process_log_labels sample_processor "log"
           (sample_world sample_two_frames_log (Some sample_symbol_db))
           sample_two_frames_log sample_symbol_db (bs "id name" ++ [NL])
           [bs "12345 SomeFunction_" ++ [NL]] [(12345, bs "SomeFunction_")]
           {[ 5; 12345 ]} 62%nat).
  - reflexivity.
  - reflexivity.
  - reflexivity.
  - by repeat constructor.
  - repeat constructor.
  - by vm_compute.
Defined.

(** Two frames, one known to the database: the known one gets its name,
    the other loses what followed the match. *)
Example process_log_two_frames :
  files (snd (process_log sample_processor "log"
                (sample_world sample_two_frames_log (Some sample_symbol_db)))) !! "log"
  = Some (bs "crash" ++ [NL] ++ CALL_STACK_MARKER
            ++ sample_bare_line ++ bs " SomeFunction" ++ [NL]
            ++ [TAB] ++ bs "[1] 0x1 a+1 -> 5+0x1" ++ [NL]
            ++ [NL] ++ bs "rax" ++ [NL]).
Proof. vm_compute. reflexivity. Qed.

(** * The loop over the logs *)

Lemma process_log_relabel self log w :
  process_log self log w =
  match files w !! log with
  | None => (Raise FileNotFoundError, w)
  | Some data =>
      match relabel (files w !! database_path self) data with
      | Raise e => (Raise e, w)
      | Ok None => (Ok (), w)
      | Ok (Some out) =>
          (Ok (),
           {| files := <[log := out]> (delete_callback self log (files w));
              events := events w ++ [Deleted log; Written log out] |})
      end
  end.
Proof.
  rewrite process_log_eq. destruct (files w !! log) as [data|]; [|done].
  unfold relabel. cbn zeta.
  destruct (scan_call_stack _ _ _) as [[ids width]|e]; [|done].
  case_bool_decide; [done|].
  destruct (lookup_in _ _) as [lk|e]; [|done].
  by repeat case_bool_decide.
Qed.

(** The loop touches the logs it is given and nothing else, whether it
    returns or raises: a file that is not among them and that the
    deletion callback, called on another path, leaves alone, keeps its
    content. *)
Lemma process_logs_frame self : forall logs w r w1,
  process_logs self logs w = (r, w1) ->
  (forall q, q ∉ logs -> kept_by self q -> files w1 !! q = files w !! q)
  /\ exists new, events w1 = events w ++ new
                 /\ Forall (fun e => event_path e ∈ logs) new.
Proof.
  induction logs as [|log rest IH]; intros w r w1 H.
  - inversion H; subst. split; [done|]. exists []. by rewrite app_nil_r.
  - cbn [process_logs] in H. unfold mbind, M_bind in H. rewrite process_log_relabel in H.
    destruct (files w !! log) as [data|] eqn:Hlog.
    2:{ inversion H; subst. split; [done|]. exists []. by rewrite app_nil_r. }
    destruct (relabel _ data) as [[out|]|e].
    + apply IH in H as [Hq (new & Hev & Hnew)]. simpl in *. split.
      * intros q Hn Hkept. apply not_elem_of_cons in Hn as [Hne Hn].
        rewrite Hq, lookup_insert_ne by done. by apply Hkept.
      * exists ([Deleted log; Written log out] ++ new). rewrite Hev, <- app_assoc.
        split; [done|]. repeat constructor.
        eapply Forall_impl; [exact Hnew|]. intros e He. by right.
    + apply IH in H as [Hq (new & Hev & Hnew)]. split.
      * intros q Hn Hkept. apply not_elem_of_cons in Hn as [Hne Hn]. by apply Hq.
      * exists new. split; [done|].
        eapply Forall_impl; [exact Hnew|]. intros e' He. by right.
    + inversion H; subst. split; [done|]. exists []. by rewrite app_nil_r.
Qed.

(** The loop in closed form, for distinct logs none of which is the
    database: it returns when no log fails, and then each log holds
    what [process_log] makes of its content. *)
Lemma process_logs_spec self :
  deletes_only self ->
  forall logs w r w1,
    NoDup logs -> database_path self ∉ logs ->
    process_logs self logs w = (r, w1) ->
    let db := files w !! database_path self in
    (r = Ok () <-> Forall (fun p => fails db (files w !! p) = false) logs)
    /\ (r = Ok () ->
        forall q, files w1 !! q =
                  if bool_decide (q ∈ logs) then final_content db (files w !! q)
                  else files w !! q).
Proof.
  intros Hdel. induction logs as [|log rest IH]; intros w r w1 Hnd Hdb H; cbn zeta.
  - inversion H; subst. split; [done|]. intros _ q. by rewrite bool_decide_eq_false_2
      by apply not_elem_of_nil.
  - apply NoDup_cons in Hnd as [Hlog Hnd]. apply not_elem_of_cons in Hdb as [Hne Hdb].
    cbn [process_logs] in H. unfold mbind, M_bind in H. rewrite process_log_relabel in H.
    rewrite Forall_cons. unfold fails at 1, final_content.
    destruct (files w !! log) as [data|] eqn:Hdata.
    2:{ inversion H; subst. split; [|done]. split; [done|by intros [? _]]. }
    destruct (relabel _ data) as [[out|]|e] eqn:Hrel.
    + set (w' := {| files := <[log:=out]> (delete_callback self log (files w));
                    events := events w ++ [Deleted log; Written log out] |}) in H.
      assert (Hsame : forall q, q <> log -> files w' !! q = files w !! q).
      { intros q Hq. simpl. rewrite lookup_insert_ne by done. by apply Hdel. }
      destruct (IH w' r w1 Hnd Hdb H) as [Hok Hfiles]. cbn zeta in Hok, Hfiles.
      rewrite Hsame in Hok, Hfiles by done.
      assert (Hall : Forall (fun p => fails (files w !! database_path self)
                                        (files w' !! p) = false) rest
                     <-> Forall (fun p => fails (files w !! database_path self)
                                            (files w !! p) = false) rest).
      { rewrite !Forall_forall. split; intros Hf p Hp; specialize (Hf p Hp);
          (rewrite Hsame in * by (by intros ->)); done. }
      split; [rewrite Hok, Hall; split; [done|by intros [_ ?]]|].
      intros Hr q. rewrite (Hfiles Hr q).
      destruct (decide (q = log)) as [->|Hq].
      * rewrite bool_decide_eq_false_2 by done.
        rewrite bool_decide_eq_true_2 by (by left).
        simpl. rewrite lookup_insert_eq, Hdata, Hrel. done.
      * rewrite Hsame by done. unfold final_content.
        destruct (decide (q ∈ rest)).
        -- by rewrite !bool_decide_eq_true_2 by (done || by right).
        -- rewrite !bool_decide_eq_false_2; [done| |done].
           by intros [?|?]%elem_of_cons.
    + destruct (IH w r w1 Hnd Hdb H) as [Hok Hfiles]. cbn zeta in Hok, Hfiles.
      split; [rewrite Hok; split; [done|by intros [_ ?]]|].
      intros Hr q. rewrite (Hfiles Hr q).
      destruct (decide (q = log)) as [->|Hq].
      * rewrite bool_decide_eq_false_2 by done.
        rewrite bool_decide_eq_true_2 by (by left). by rewrite Hdata, Hrel.
      * destruct (decide (q ∈ rest)).
        -- by rewrite !bool_decide_eq_true_2 by (done || by right).
        -- rewrite !bool_decide_eq_false_2; [done| |done].
           by intros [?|?]%elem_of_cons.
    + inversion H; subst. split; [|done]. split; [done|by intros [? _]].
Qed.

(** The order in which the logs are taken decides neither whether the
    loop returns nor what the files hold when it does. *)
Lemma process_logs_perm self l1 l2 w :
  deletes_only self -> NoDup l1 -> l1 ≡ₚ l2 -> database_path self ∉ l1 ->
  (fst (process_logs self l1 w) = Ok () <-> fst (process_logs self l2 w) = Ok ())
  /\ (fst (process_logs self l1 w) = Ok () ->
      files (snd (process_logs self l1 w)) = files (snd (process_logs self l2 w))).
Proof.
  intros Hdel Hnd Hperm Hdb.
  destruct (process_logs self l1 w) as [r1 w1] eqn:H1.
  destruct (process_logs self l2 w) as [r2 w2] eqn:H2.
  destruct (process_logs_spec self Hdel l1 w r1 w1 Hnd Hdb H1) as [Hok1 Hf1].
  assert (Hnd2 : NoDup l2) by (by rewrite <- Hperm).
  assert (Hdb2 : database_path self ∉ l2) by (by rewrite <- Hperm).
  destruct (process_logs_spec self Hdel l2 w r2 w2 Hnd2 Hdb2 H2) as [Hok2 Hf2].
  cbn zeta in *. simpl.
  assert (Hiff : r1 = Ok () <-> r2 = Ok ()) by (by rewrite Hok1, Hok2, Hperm).
  split; [done|]. intros Hr1. apply map_eq. intros q.
  rewrite (Hf1 Hr1 q), (Hf2 (proj1 Hiff Hr1) q).
  destruct (decide (q ∈ l1)) as [Hq|Hq].
  - rewrite !bool_decide_eq_true_2; [done| |done]. by rewrite <- Hperm.
  - rewrite !bool_decide_eq_false_2; [done| |done]. by rewrite <- Hperm.
Qed.

(** * The callbacks of the labeler *)

(** X13. A Python set is iterated in an order the program does not choose.
    Whatever the order, [onFinishedRunCallback] returns or raises alike,
    and when it returns, the labeler and the files end up the same:
    provided the deletion callback removes the file it is given at most
    and the database is not among the logs found. *)
Theorem onFinishedRunCallback_any_order order1 order2 self found w :
  (forall s, order1 s ≡ₚ elements s) ->
  (forall s, order2 s ≡ₚ elements s) ->
  deletes_only (processor self) ->
  database_path (processor self) ∉ found ->
  let c1 := onFinishedRunCallback order1 self found w in
  let c2 := onFinishedRunCallback order2 self found w in
  (c1.1.1 = Ok () <-> c2.1.1 = Ok ())
  /\ (c1.1.1 = Ok () -> c1.1.2 = c2.1.2 /\ files c1.2 = files c2.2).
Proof.
  intros Ho1 Ho2 Hdel Hdb. unfold onFinishedRunCallback. cbn zeta.
  case_bool_decide; [done|].
  set (new_logs := found ∖ processed_logs self).
  destruct (process_logs_perm (processor self) (order1 new_logs) (order2 new_logs) w)
    as [Hiff Hfiles]; [done| | | |].
  - rewrite Ho1. apply NoDup_elements.
  - by rewrite Ho1, Ho2.
  - rewrite Ho1, elem_of_elements. unfold new_logs.
    intros [Hin _]%elem_of_difference. by apply Hdb.
  - destruct (process_logs _ (order1 new_logs) w) as [[[]|e1] w1];
      destruct (process_logs _ (order2 new_logs) w) as [[[]|e2] w2]; simpl in *.
    + split; [exact Hiff|]. intros _. split; [done|by apply Hfiles].
    + exfalso. by specialize (proj1 Hiff eq_refl).
    + exfalso. by specialize (proj2 Hiff eq_refl).
    + split; [exact Hiff|done].
Qed.

Lemma onFinishedRunCallback_any_order_witness :
  let c1 := onFinishedRunCallback sample_order sample_fresh_labeler
              ({[ "log" ]} ∪ {[ "log2" ]}) sample_two_logs_world in
  let c2 := onFinishedRunCallback elements sample_fresh_labeler
              ({[ "log" ]} ∪ {[ "log2" ]}) sample_two_logs_world in
  (c1.1.1 = Ok () <-> c2.1.1 = Ok ())
  /\ (c1.1.1 = Ok () -> c1.1.2 = c2.1.2 /\ files c1.2 = files c2.2).
Proof.
  apply (onFinishedRunCallback_any_order sample_order elements sample_fresh_labeler
           ({[ "log" ]} ∪ {[ "log2" ]}) sample_two_logs_world).
  - intros s. apply merge_sort_Permutation.
  - done.
  - intros p fs q Hq. by apply lookup_delete_ne.
  - rewrite elem_of_union, !elem_of_singleton. by intros [?|?].
Defined.

Lemma process_logs_order_frame (order : gset path -> list path) self s w r w1 :
  (forall s p, p ∈ order s -> p ∈ s) ->
  process_logs self (order s) w = (r, w1) ->
  (forall q, q ∉ s -> kept_by self q -> files w1 !! q = files w !! q)
  /\ exists new, events w1 = events w ++ new
                 /\ Forall (fun e => event_path e ∈ s) new.
Proof.
  intros Ho H.
  destruct (process_logs_frame self _ _ _ _ H) as [Hq (new & Hev & Hnew)]. split.
  - intros q Hn. apply Hq. intros Hin. by apply Hn, Ho.
  - exists new. split; [done|]. eapply Forall_impl; [exact Hnew|].
    intros e He. by apply Ho.
Qed.

(** X14. Provided the iteration of a set yields members of the set
    only, [onFinishedRunCallback] works on the logs that are new and
    on nothing else: every deletion and every write is of a new log,
    and every other file keeps its content if the deletion callback,
    called on another path, leaves that file alone.  When it returns,
    all the logs found are recorded as processed, and a further call
    that finds nothing beyond them does nothing at all; when it
    raises, the record is as it was, so the logs of this round are
    taken up again by the next. *)
Theorem onFinishedRunCallback_once order self found w r self' w' :
  (forall s p, p ∈ order s -> p ∈ s) ->
  onFinishedRunCallback order self found w = (r, self', w') ->
  processor self' = processor self
  /\ (forall q, q ∉ found ∖ processed_logs self -> kept_by (processor self) q ->
                files w' !! q = files w !! q)
  /\ (exists new, events w' = events w ++ new
                  /\ Forall (fun e => event_path e ∈ found ∖ processed_logs self) new)
  /\ match r with
     | Ok _ =>
         processed_logs self' = processed_logs self ∪ found
         /\ forall found2 w2,
              found2 ⊆ processed_logs self' ->
              onFinishedRunCallback order self' found2 w2 = (Ok (), self', w2)
     | Raise _ => self' = self
     end.
Proof.
  intros Ho H. unfold onFinishedRunCallback in H. cbn zeta in H.
  assert (Hagain : forall s : CrashLogLabeler, forall found2 w2,
             found2 ⊆ processed_logs s ->
             onFinishedRunCallback order s found2 w2 = (Ok (), s, w2)).
  { intros s found2 w2 Hsub. unfold onFinishedRunCallback. cbn zeta.
    rewrite bool_decide_eq_true_2; [done|]. apply set_eq. intros q.
    rewrite elem_of_difference. split; [intros [Hin Hn]|by intros ?%elem_of_empty].
    by apply Hsub in Hin. }
  case_bool_decide as Hnew.
  - inversion H; subst. split; [done|]. split; [done|].
    split; [exists []; by rewrite app_nil_r|].
    split; [|by apply Hagain].
    apply set_eq. intros q. rewrite elem_of_union. split; [by left|].
    intros [?|Hq]; [done|]. destruct (decide (q ∈ processed_logs self')); [done|].
    assert (Hin : q ∈ found ∖ processed_logs self') by (by apply elem_of_difference).
    rewrite Hnew in Hin. by apply elem_of_empty in Hin.
  - destruct (process_logs _ _ w) as [[[]|e] w1] eqn:Hloop.
    + inversion H; subst. simpl.
      destruct (process_logs_order_frame order _ _ _ _ _ Ho Hloop) as [Hq Hev].
      split; [done|]. split; [done|]. split; [done|].
      assert (Hun : processed_logs self ∪ found ∖ processed_logs self
                    = processed_logs self ∪ found).
      { apply set_eq. intros q. rewrite !elem_of_union, elem_of_difference.
        destruct (decide (q ∈ processed_logs self)); tauto. }
      split; [done|]. intros found2 w2 Hsub. by apply Hagain.
    + inversion H; subst.
      destruct (process_logs_order_frame order _ _ _ _ _ Ho Hloop) as [Hq Hev].
      split; [done|]. split; [done|]. by split.
Qed.

Lemma onFinishedRunCallback_once_witness :
  let call := onFinishedRunCallback sample_order sample_labeler
                ({[ "log" ]} ∪ {[ "log2" ]}) sample_two_logs_world in
  processor call.1.2 = processor sample_labeler
  /\ (forall q, q ∉ ({[ "log" ]} ∪ {[ "log2" ]}) ∖ processed_logs sample_labeler ->
                kept_by (processor sample_labeler) q ->
                files call.2 !! q = files sample_two_logs_world !! q)
  /\ (exists new,
         events call.2 = events sample_two_logs_world ++ new
         /\ Forall (fun e => event_path e
                             ∈ ({[ "log" ]} ∪ {[ "log2" ]}) ∖ processed_logs sample_labeler)
              new)
  /\ match call.1.1 with
     | Ok _ =>
         processed_logs call.1.2
         = processed_logs sample_labeler ∪ ({[ "log" ]} ∪ {[ "log2" ]})
         /\ forall found2 w2,
              found2 ⊆ processed_logs call.1.2 ->
              onFinishedRunCallback sample_order call.1.2 found2 w2
              = (Ok (), call.1.2, w2)
     | Raise _ => call.1.2 = sample_labeler
     end.
Proof.
  intros call.
  apply (onFinishedRunCallback_once sample_order sample_labeler
           ({[ "log" ]} ∪ {[ "log2" ]}) sample_two_logs_world call.1.1 call.1.2 call.2).
  - intros s p. unfold sample_order. rewrite merge_sort_Permutation.
    apply elem_of_elements.
  - subst call. by destruct (onFinishedRunCallback _ _ _ _) as [[? ?] ?].
Defined.

(** After a run, the log that was new carries the name and the one
    processed before is as it was. *)
Example onFinishedRunCallback_sample :
  let call := onFinishedRunCallback sample_order sample_labeler
                ({[ "log" ]} ∪ {[ "log2" ]}) sample_two_logs_world in
  call.1.1 = Ok ()
  /\ files call.2 !! "log" = Some sample_frame_log
  /\ events call.2
     = [Deleted "log2";
        Written "log2"
          (bs "crash" ++ [NL] ++ CALL_STACK_MARKER
             ++ sample_bare_line ++ bs " SomeFunction" ++ [NL]
             ++ [TAB] ++ bs "[1] 0x1 a+1 -> 5+0x1" ++ [NL]
             ++ [NL] ++ bs "rax" ++ [NL])].
Proof. vm_compute. done. Qed.

(** X15. Provided the iteration of a set yields members of the set
    only, [onUserInterfaceInitializedCallback] processes every log
    found, processed before or not, and leaves the content of every
    other file that the deletion callback, called on another path,
    leaves alone.  When it returns, the logs found are recorded as
    processed, and the callback of the run that follows leaves each of
    them (that the deletion callback leaves alone) as it is then; when
    it raises, the record of processed logs is as it was. *)
Theorem onUserInterfaceInitializedCallback_then_run
    order new_processor self found w r s1 w1 :
  (forall s p, p ∈ order s -> p ∈ s) ->
  onUserInterfaceInitializedCallback order new_processor self found w = (r, s1, w1) ->
  processor s1 = new_processor
  /\ (forall q, q ∉ found -> kept_by new_processor q -> files w1 !! q = files w !! q)
  /\ (r = Ok () ->
      processed_logs s1 = processed_logs self ∪ found
      /\ forall found' r2 s2 w2,
           onFinishedRunCallback order s1 found' w1 = (r2, s2, w2) ->
           forall q, q ∈ found -> kept_by new_processor q ->
                     files w2 !! q = files w1 !! q)
  /\ (forall e, r = Raise e -> processed_logs s1 = processed_logs self).
Proof.
  intros Ho H. unfold onUserInterfaceInitializedCallback in H.
  destruct (process_logs _ _ w) as [[[]|e] w'] eqn:Hloop; inversion H; subst; simpl.
  - destruct (process_logs_order_frame order _ _ _ _ _ Ho Hloop) as [Hq _].
    split; [done|]. split; [done|]. split; [|done]. intros _. split; [done|].
    intros found' r2 s2 w2 Hrun q Hin Hkept.
    unfold onFinishedRunCallback in Hrun. cbn zeta in Hrun. simpl in Hrun.
    case_bool_decide; [by inversion Hrun|].
    destruct (process_logs _ _ w1) as [r' w''] eqn:Hloop2.
    destruct (process_logs_order_frame order _ _ _ _ _ Ho Hloop2) as [Hq2 _].
    assert (Hw : w2 = w'') by (by destruct r' as [[]|?]; inversion Hrun).
    subst. apply Hq2; [|done]. rewrite elem_of_difference, elem_of_union. tauto.
  - destruct (process_logs_order_frame order _ _ _ _ _ Ho Hloop) as [Hq _].
    split; [done|]. split; [done|]. split; [done|]. by intros e' [= <-].
Qed.

Lemma onUserInterfaceInitializedCallback_then_run_witness :
  let call := onUserInterfaceInitializedCallback sample_order sample_processor
                sample_fresh_labeler ({[ "log" ]} ∪ {[ "log2" ]}) sample_two_logs_world in
  processor call.1.2 = sample_processor
  /\ (forall q, q ∉ ({[ "log" ]} ∪ {[ "log2" ]} : gset path) ->
                kept_by sample_processor q ->
                files call.2 !! q = files sample_two_logs_world !! q)
  /\ (call.1.1 = Ok () ->
      processed_logs call.1.2
      = processed_logs sample_fresh_labeler ∪ ({[ "log" ]} ∪ {[ "log2" ]})
      /\ forall found' r2 s2 w2,
           onFinishedRunCallback sample_order call.1.2 found' call.2 = (r2, s2, w2) ->
           forall q, q ∈ ({[ "log" ]} ∪ {[ "log2" ]} : gset path) ->
                     kept_by sample_processor q ->
                     files w2 !! q = files call.2 !! q)
  /\ (forall e, call.1.1 = Raise e ->
      processed_logs call.1.2 = processed_logs sample_fresh_labeler).
Proof.
  intros call.
  apply (onUserInterfaceInitializedCallback_then_run sample_order sample_processor
           sample_fresh_labeler ({[ "log" ]} ∪ {[ "log2" ]}) sample_two_logs_world
           call.1.1 call.1.2 call.2).
  - intros s p. unfold sample_order. rewrite merge_sort_Permutation.
    apply elem_of_elements.
  - subst call.
    by destruct (onUserInterfaceInitializedCallback _ _ _ _ _) as [[? ?] ?].
Defined.
